(** * gi/closure.c: the closure bridge between GClosure and a JS callable

    A shallow embedding of [src/gi/closure.c].  The C struct [Closure]
    becomes a record, pointers become [option] (with [None] for NULL), and
    the functions of the file become computations in a small state and
    abort monad over a [World]: the closure's storage together with the
    part of the engine, of GLib and of the keep-alive table that the file
    talks to.  Every outgoing call appends an event to a trace, paired with
    the closure's fields as they are when the call is made: that is what a
    reentrant callee would observe. *)

From stdpp Require Import base option list gmap strings.


(** ** Data *)

(** Pointers are identities; NULL is [None] at the use site. *)
Definition JSRuntime := nat.
Definition JSContext := nat.
Definition JSObject := nat.
Definition Exn := nat.
Definition jsval := Z.

(** [typedef struct { GClosure base; JSRuntime *runtime; JSContext
    *context; JSObject *obj; guint unref_on_global_object_finalized : 1; }
    Closure;] with the two fields of [GClosure base] that matter here. *)
Record Closure := mkClosure {
  ref_count : nat;
  is_invalid : bool;
  runtime : option JSRuntime;
  context : option JSContext;
  obj : option JSObject;
  unref_on_global_object_finalized : bool
}.

#[global] Instance Closure_eq_dec : EqDecision Closure.
Proof. solve_decision. Defined.

(** What the file asks of its collaborators, in the order of the source. *)
Inductive Event :=
| EvClear                                   (* obj, context, runtime set to NULL *)
| EvInvalidateNotify                        (* GLib runs the invalidate notifiers *)
| EvFinalizeNotify                          (* closure_finalized: GJS_DEC_COUNTER *)
| EvFree                                    (* GLib releases the closure's storage *)
| EvIncCounter                              (* GJS_INC_COUNTER(closure) *)
| EvKeepAliveAdd (cx : JSContext) (o : option JSObject)
| EvKeepAliveRemove (cx : JSContext) (o : option JSObject)
| EvContextIterator (rt : JSRuntime)        (* the walk over the runtime's contexts *)
| EvBeginRequest (cx : JSContext)
| EvEndRequest (cx : JSContext)
| EvPopArguments (cx : JSContext)
| EvCallFunction (cx : JSContext) (o : JSObject) (argc : nat) (argv : list jsval)
| EvLogException (e : Exn)
| EvUseAfterFree.                           (* a notifier delivered to released storage *)

#[global] Instance Event_eq_dec : EqDecision Event.
Proof. solve_decision. Defined.

(** The newest event is at the head of the trace. *)
Abbreviation Trace := (list (Event * Closure)).

Record World := mkWorld {
  w_closure : Closure;                          (* the Closure's storage *)
  w_freed : bool;                               (* storage released *)
  w_contexts : list (JSContext * JSRuntime);    (* live contexts, each with its runtime *)
  w_pending : gmap nat Exn;                     (* pending exception of each context *)
  w_keep_alive : list (JSContext * option JSObject);
                                                (* keep-alive children whose notifier is
                                                   global_context_finalized, data = c *)
  w_retval : jsval;                             (* the caller's *retval slot *)
  w_trace : Trace
}.

(** ** The monad: state passing, [None] for an aborted run *)

Definition M (A : Type) : Type := World -> option (A * World).

Definition ret {A} (a : A) : M A := fun w => Some (a, w).
Definition bind {A B} (m : M A) (k : A -> M B) : M B :=
  fun w => match m w with
           | Some (a, w') => k a w'
           | None => None
           end.
Definition abort {A} : M A := fun _ => None.

Declare Scope closure_scope.
Delimit Scope closure_scope with closure.
Notation "x <- m ;; k" := (bind m (fun x => k))
  (at level 100, m at next level, right associativity) : closure_scope.
Notation "m ;; k" := (bind m (fun _ => k))
  (at level 100, right associativity) : closure_scope.
Open Scope closure_scope.

Definition run {A} (m : M A) (w : World) : option World :=
  match m w with Some (_, w') => Some w' | None => None end.

Definition get_c : M Closure := fun w => Some (w_closure w, w).

Definition put_c (c : Closure) : M unit := fun w =>
  Some (tt, mkWorld c (w_freed w) (w_contexts w) (w_pending w)
                    (w_keep_alive w) (w_retval w) (w_trace w)).

Definition emit (e : Event) : M unit := fun w =>
  Some (tt, mkWorld (w_closure w) (w_freed w) (w_contexts w) (w_pending w)
                    (w_keep_alive w) (w_retval w) ((e, w_closure w) :: w_trace w)).

(** Field stores, one per assignment of the source. *)
Definition set_ref_count (n : nat) : M unit :=
  c <- get_c;;
  put_c (mkClosure n (is_invalid c) (runtime c) (context c) (obj c)
                   (unref_on_global_object_finalized c)).
Definition set_is_invalid (b : bool) : M unit :=
  c <- get_c;;
  put_c (mkClosure (ref_count c) b (runtime c) (context c) (obj c)
                   (unref_on_global_object_finalized c)).
Definition set_runtime (r : option JSRuntime) : M unit :=
  c <- get_c;;
  put_c (mkClosure (ref_count c) (is_invalid c) r (context c) (obj c)
                   (unref_on_global_object_finalized c)).
Definition set_context (x : option JSContext) : M unit :=
  c <- get_c;;
  put_c (mkClosure (ref_count c) (is_invalid c) (runtime c) x (obj c)
                   (unref_on_global_object_finalized c)).
Definition set_obj (o : option JSObject) : M unit :=
  c <- get_c;;
  put_c (mkClosure (ref_count c) (is_invalid c) (runtime c) (context c) o
                   (unref_on_global_object_finalized c)).
Definition set_unref_on_global_object_finalized (b : bool) : M unit :=
  c <- get_c;;
  put_c (mkClosure (ref_count c) (is_invalid c) (runtime c) (context c) (obj c) b).

(** ** The engine (SpiderMonkey) *)

(** [JS_GetRuntime(context)]: reads the context, which has to be live. *)
Fixpoint runtime_of (cx : JSContext) (l : list (JSContext * JSRuntime)) : option JSRuntime :=
  match l with
  | [] => None
  | (a, rt) :: l' => if Nat.eqb a cx then Some rt else runtime_of cx l'
  end.

Definition JS_GetRuntime (cx : JSContext) : M JSRuntime := fun w =>
  match runtime_of cx (w_contexts w) with
  | Some rt => Some (rt, w)
  | None => None
  end.

(** The contexts [JS_ContextIterator(rt, &iter)] hands out, in order. *)
Fixpoint contexts_of (rt : JSRuntime) (l : list (JSContext * JSRuntime)) : list JSContext :=
  match l with
  | [] => []
  | (a, r) :: l' => if Nat.eqb r rt then a :: contexts_of rt l' else contexts_of rt l'
  end.

Definition JS_ContextIterator (rt : JSRuntime) : M (list JSContext) :=
  emit (EvContextIterator rt);;
  fun w => Some (contexts_of rt (w_contexts w), w).

Definition JS_BeginRequest (cx : JSContext) : M unit := emit (EvBeginRequest cx).
Definition JS_EndRequest (cx : JSContext) : M unit := emit (EvEndRequest cx).
Definition JS_PopArguments (cx : JSContext) : M unit := emit (EvPopArguments cx).

Definition JS_IsExceptionPending (cx : JSContext) : M bool := fun w =>
  Some (bool_decide (is_Some (w_pending w !! cx)), w).

Definition set_pending (p : gmap nat Exn) : M unit := fun w =>
  Some (tt, mkWorld (w_closure w) (w_freed w) (w_contexts w) p
                    (w_keep_alive w) (w_retval w) (w_trace w)).

Definition set_retval (v : jsval) : M unit := fun w =>
  Some (tt, mkWorld (w_closure w) (w_freed w) (w_contexts w) (w_pending w)
                    (w_keep_alive w) v (w_trace w)).

Definition set_keep_alive (k : list (JSContext * option JSObject)) : M unit := fun w =>
  Some (tt, mkWorld (w_closure w) (w_freed w) (w_contexts w) (w_pending w)
                    k (w_retval w) (w_trace w)).

Definition set_contexts (l : list (JSContext * JSRuntime)) : M unit := fun w =>
  Some (tt, mkWorld (w_closure w) (w_freed w) l (w_pending w)
                    (w_keep_alive w) (w_retval w) (w_trace w)).

Definition set_freed (b : bool) : M unit := fun w =>
  Some (tt, mkWorld (w_closure w) b (w_contexts w) (w_pending w)
                    (w_keep_alive w) (w_retval w) (w_trace w)).

(** Modelled from the spec: [gjs_log_exception] is defined in gjs/jsapi-util,
    which is not among the sources.  Section 6 gives the engine a pending
    exception slot per context with [pending_exception] and
    [clear_exception]; the function reports the pending exception, clears
    the slot and answers whether there was one. *)
Definition gjs_log_exception (cx : JSContext) : M bool := fun w =>
  match w_pending w !! cx with
  | None => Some (false, w)
  | Some e => (set_pending (delete cx (w_pending w));;
               emit (EvLogException e);;
               ret true) w
  end.

(** ** The keep-alive table *)

Definition is_live (cx : JSContext) (w : World) : bool :=
  bool_decide (is_Some (runtime_of cx (w_contexts w))).

Fixpoint remove_child (cx : JSContext) (o : option JSObject)
    (k : list (JSContext * option JSObject)) : list (JSContext * option JSObject) :=
  match k with
  | [] => []
  | e :: k' => if bool_decide (e = (cx, o)) then k' else e :: remove_child cx o k'
  end.

(** Modelled from the spec: gi/keep-alive.c is not among the sources.
    Section 4.2 describes a per-context table of (notifier, watched) pairs
    with [add] and point removal [remove].  The table hangs off the
    context's global object, so both need the context to be live (NULL or a
    destroyed context is invalid memory: the run aborts). *)
Definition gjs_keep_alive_add_global_child (cx : option JSContext)
    (o : option JSObject) : M unit :=
  match cx with
  | None => abort
  | Some x => fun w =>
      if is_live x w
      then (emit (EvKeepAliveAdd x o);;
            set_keep_alive ((x, o) :: w_keep_alive w)) w
      else None
  end.

Definition gjs_keep_alive_remove_global_child (cx : option JSContext)
    (o : option JSObject) : M unit :=
  match cx with
  | None => abort
  | Some x => fun w =>
      if is_live x w
      then (emit (EvKeepAliveRemove x o);;
            set_keep_alive (remove_child x o (w_keep_alive w))) w
      else None
  end.

(** ** GLib's GClosure *)

(** GLib is a library the bridge is built on; its gclosure.c is not among
    the sources.  The three functions below follow section 4.1 of the
    specification (ordinary reference counting; the last unref runs the
    invalidate protocol if that has not happened yet, then the finalize
    notifier, then releases the storage) and GLib's reference manual
    (invalidation happens once per closure, and the closure holds a
    reference on itself while its invalidate notifiers run). *)

(** [closure_finalized]: the finalize notifier registered by
    [gjs_closure_new]; it only decrements the counter of live closures. *)
Definition closure_finalized : M unit := emit EvFinalizeNotify.

(** Modelled from the spec: [g_closure_ref], of GLib. *)
Definition g_closure_ref : M unit :=
  c <- get_c;;
  set_ref_count (S (ref_count c)).

(** Modelled from the spec: [g_closure_unref], of GLib.  Nothing on a
    count of zero ([g_return_if_fail]); the last unref invalidates first;
    the count is decremented; at zero the finalize notifier runs and the
    storage is released.  The call to [g_closure_invalidate] is left
    open. *)
Definition g_closure_unref_with (g_closure_invalidate : M unit) : M unit :=
  c <- get_c;;
  if Nat.eqb (ref_count c) 0 then ret tt
  else
    (if Nat.eqb (ref_count c) 1 then g_closure_invalidate else ret tt);;
    c' <- get_c;;
    let new_ref_count := pred (ref_count c') in
    set_ref_count new_ref_count;;
    if Nat.eqb new_ref_count 0
    then closure_finalized;; emit EvFree;; set_freed true
    else ret tt.

(** Modelled from the spec: [g_closure_invalidate], of GLib.  Nothing on a
    closure already marked invalid; otherwise it takes a reference, marks
    the closure, runs the invalidate notifier (the one registered by
    [gjs_closure_new]) and drops the reference.  The notifier may call back
    into [g_closure_invalidate]; [fuel] bounds that nesting, and one unit
    is always enough ([g_closure_invalidate_fuel] below). *)
Fixpoint g_closure_invalidate_n (notifier : M unit -> M unit) (fuel : nat) : M unit :=
  c <- get_c;;
  if is_invalid c then ret tt
  else match fuel with
       | 0 => abort
       | S n =>
           g_closure_ref;;
           set_is_invalid true;;
           emit EvInvalidateNotify;;
           notifier (g_closure_invalidate_n notifier n);;
           g_closure_unref_with (g_closure_invalidate_n notifier n)
       end.

(** ** gi/closure.c *)

Module Src.
Section Linkage.

(** The functions call [g_closure_invalidate], which calls back
    [closure_invalidated]; the knot is tied after the section. *)
Variable g_closure_invalidate : M unit.

Definition clear_triple : M unit :=
  set_obj None;;
  set_context None;;
  set_runtime None;;
  emit EvClear.

Definition invalidate_js_pointers : M unit :=
  c <- get_c;;
  match obj c with
  | None => ret tt
  | Some _ =>
      clear_triple;;
      g_closure_invalidate
  end.

(** The [while] loop over [JS_ContextIterator]: does some context of the
    runtime equal [c->context]? *)
Fixpoint context_walk (target : option JSContext) (ctxs : list JSContext) : bool :=
  match ctxs with
  | [] => false
  | a_context :: rest =>
      if bool_decide (Some a_context = target) then true
      else context_walk target rest
  end.

Definition check_context_valid : M unit :=
  c <- get_c;;
  match runtime c with
  | None => ret tt
  | Some rt =>
      ctxs <- JS_ContextIterator rt;;
      if context_walk (context c) ctxs then ret tt
      else invalidate_js_pointers
  end.

Definition closure_invalidated : M unit :=
  c <- get_c;;
  match obj c with
  | None => ret tt
  | Some _ =>
      check_context_valid;;
      c' <- get_c;;
      match obj c' with
      | None =>
          set_unref_on_global_object_finalized true;;
          g_closure_ref
      | Some _ =>
          gjs_keep_alive_remove_global_child (context c') (obj c');;
          clear_triple
      end
  end.

End Linkage.
End Src.

Definition g_closure_invalidate : M unit :=
  g_closure_invalidate_n Src.closure_invalidated 1.

Definition g_closure_unref : M unit := g_closure_unref_with g_closure_invalidate.

Definition invalidate_js_pointers : M unit := Src.invalidate_js_pointers g_closure_invalidate.
Definition check_context_valid : M unit := Src.check_context_valid g_closure_invalidate.
Definition closure_invalidated : M unit := Src.closure_invalidated g_closure_invalidate.

(** [g_assert (c->obj == obj)] *)
Definition g_assert (b : bool) : M unit := if b then ret tt else abort.

Definition global_context_finalized (o : option JSObject) : M unit :=
  c <- get_c;;
  let need_unref := unref_on_global_object_finalized c in
  set_unref_on_global_object_finalized false;;
  (match obj c with
   | Some _ =>
       g_assert (bool_decide (obj c = o));;
       invalidate_js_pointers
   | None => ret tt
   end);;
  if need_unref then g_closure_unref else ret tt.

Section Invoke.

(** [gjs_call_function_value (context, NULL, OBJECT_TO_JSVAL (c->obj),
    argc, argv, retval)]: the call primitive of section 6
    ([invoke_callable]), defined in gjs/jsapi-util, which is not among the
    sources.  It runs script code, which may call back into the bridge, so
    it stays a parameter here; [engine_call] below supplies it. *)
Variable gjs_call_function_value :
  JSContext -> JSObject -> nat -> list jsval -> M bool.

Definition gjs_closure_invoke (argc : nat) (argv : list jsval) : M unit :=
  check_context_valid;;
  c <- get_c;;
  let context_ := context c in
  match obj c with
  | None =>
      (* We were destroyed; become a no-op *)
      set_context None
  | Some callee =>
      match context_ with
      | None => abort
      | Some cx =>
          JS_BeginRequest cx;;
          pending <- JS_IsExceptionPending cx;;
          (* Exception was pending before invoking callback??? Not expected;
             c->context is still context here *)
          (if pending then _ <- gjs_log_exception cx;; ret tt else ret tt);;
          ok <- gjs_call_function_value cx callee argc argv;;
          if negb ok
          then
            (* Exception thrown... *)
            _ <- gjs_log_exception cx;;
            JS_EndRequest cx
          else
            _ <- gjs_log_exception cx;;
            JS_EndRequest cx
      end
  end.

(** [pushed] is what [JS_PushArgumentsVA (context, &stack_space, format,
    ap)] answers: NULL or the argument vector.  Rooting and unrooting of
    the arguments does not show in this model. *)
Definition gjs_closure_invoke_simple (cx : JSContext) (format : string)
    (pushed : option (list jsval)) : M bool :=
  JS_BeginRequest cx;;
  match pushed with
  | None => ret false
  | Some argv =>
      let argc := String.length format in
      gjs_closure_invoke argc argv;;
      JS_PopArguments cx;;
      JS_EndRequest cx;;
      ret true
  end.

End Invoke.

Definition gjs_closure_get_context : M (option JSContext) :=
  check_context_valid;;
  c <- get_c;;
  ret (context c).

Definition gjs_closure_get_callable : M (option JSObject) :=
  c <- get_c;;
  ret (obj c).

(** Modelled from the spec: [g_closure_new_simple (sizeof (Closure), NULL)],
    of GLib: zeroed storage with one reference (section 4.1, create). *)
Definition g_closure_new_simple : M unit :=
  put_c (mkClosure 1 false None None None false);;
  set_freed false.

Definition gjs_closure_new (cx : JSContext) (callable : option JSObject) : M unit :=
  g_closure_new_simple;;
  rt <- JS_GetRuntime cx;;
  set_runtime (Some rt);;
  set_context (Some cx);;
  JS_BeginRequest cx;;
  set_obj callable;;
  set_unref_on_global_object_finalized false;;
  emit EvIncCounter;;
  c <- get_c;;
  gjs_keep_alive_add_global_child (context c) (obj c);;
  JS_EndRequest cx.

(** ** The environment: native callers, the host and the collector *)

(** How a call of the callable ends: it returns a value, or it fails; in
    both cases it may leave an exception pending. *)
Inductive CallOutcome :=
| Returned (v : jsval) (exn : option Exn)
| Failed (exn : option Exn).

(** What can happen to a bridge.  An invocation carries what the callable
    does when it is dispatched: the operations its script code performs on
    the bridge while it runs, and how the call ends. *)
#[warnings="-register-all"]
Inductive Op :=
| OpInvoke (argc : nat) (argv : list jsval) (body : list Op) (out : CallOutcome)
| OpInvokeSimple (cx : JSContext) (format : string) (pushed : option (list jsval))
                 (body : list Op) (out : CallOutcome)
| OpGetContext
| OpGetCallable
| OpRef                                  (* g_closure_ref *)
| OpUnref                                (* g_closure_unref *)
| OpInvalidate                           (* g_closure_invalidate *)
| OpDestroyContext (cx : JSContext)      (* the host destroys a context *)
| OpGlobalFinalized (cx : JSContext)     (* the collector finalizes its global object *)
| OpThrow (cx : JSContext) (e : Exn).    (* an exception is left pending *)

Definition leave_pending (cx : JSContext) (exn : option Exn) : M unit := fun w =>
  match exn with
  | Some e => set_pending (<[cx := e]> (w_pending w)) w
  | None => Some (tt, w)
  end.

(** The engine's call primitive for a callable that does [body] and ends
    with [out]. *)
Definition engine_call (body : M unit) (out : CallOutcome)
    (cx : JSContext) (callee : JSObject) (argc : nat) (argv : list jsval) : M bool :=
  emit (EvCallFunction cx callee argc argv);;
  body;;
  match out with
  | Returned v exn => set_retval v;; leave_pending cx exn;; ret true
  | Failed exn => leave_pending cx exn;; ret false
  end.

(** Native callers do not use a handle after its storage is released. *)
Definition client {A} (m : M A) : M unit := fun w =>
  if w_freed w then Some (tt, w) else (_ <- m;; ret tt) w.

Fixpoint remove_context (cx : JSContext) (l : list (JSContext * JSRuntime))
    : list (JSContext * JSRuntime) :=
  match l with
  | [] => []
  | (a, rt) :: l' => if Nat.eqb a cx then remove_context cx l'
                     else (a, rt) :: remove_context cx l'
  end.

Definition JS_DestroyContext (cx : JSContext) : M unit := fun w =>
  set_contexts (remove_context cx (w_contexts w)) w.

(** Modelled from the spec: gi/keep-alive.c is not among the sources.  When
    the global object of [cx] is finalized, each child registered for it is
    taken out of the table and its notifier is called once (section 4.2).
    The table does not know whether the closure it was given as data still
    has storage. *)
Fixpoint fire (entries : list (JSContext * option JSObject)) : M unit :=
  match entries with
  | [] => ret tt
  | (_, o) :: rest =>
      (fun w => if w_freed w then emit EvUseAfterFree w
                else global_context_finalized o w);;
      fire rest
  end.

Definition keep_alive_fire (cx : JSContext) : M unit := fun w =>
  let mine := filter (fun e => e.1 = cx) (w_keep_alive w) in
  let others := filter (fun e => e.1 <> cx) (w_keep_alive w) in
  (set_keep_alive others;; fire mine) w.

Fixpoint run_op (o : Op) : M unit :=
  match o with
  | OpInvoke argc argv body out =>
      client (gjs_closure_invoke
                (engine_call (foldr (fun o' k => run_op o';; k) (ret tt) body) out)
                argc argv)
  | OpInvokeSimple cx format pushed body out =>
      client (gjs_closure_invoke_simple
                (engine_call (foldr (fun o' k => run_op o';; k) (ret tt) body) out)
                cx format pushed)
  | OpGetContext => client gjs_closure_get_context
  | OpGetCallable => client gjs_closure_get_callable
  | OpRef => client g_closure_ref
  | OpUnref => client g_closure_unref
  | OpInvalidate => client g_closure_invalidate
  | OpDestroyContext cx => JS_DestroyContext cx
  | OpGlobalFinalized cx => keep_alive_fire cx
  | OpThrow cx e => leave_pending cx (Some e)
  end.

Definition run_ops (l : list Op) : M unit :=
  foldr (fun o k => run_op o;; k) (ret tt) l.

(** A host with the given live contexts and no closure yet. *)
Definition host (ctxs : list (JSContext * JSRuntime)) : World :=
  mkWorld (mkClosure 0 false None None None false) true ctxs ∅ [] 0%Z [].

(** ** Predicates on bridges and traces *)

Definition triple_null (c : Closure) : Prop :=
  runtime c = None /\ context c = None /\ obj c = None.

Definition triple_full (c : Closure) : Prop :=
  is_Some (runtime c) /\ is_Some (context c) /\ is_Some (obj c).

(** All or nothing. *)
Definition triple_ok (c : Closure) : Prop := triple_null c \/ triple_full c.

#[global] Instance triple_null_dec c : Decision (triple_null c).
Proof. unfold triple_null; apply _. Defined.
#[global] Instance triple_full_dec c : Decision (triple_full c).
Proof. unfold triple_full; apply _. Defined.
#[global] Instance triple_ok_dec c : Decision (triple_ok c).
Proof. unfold triple_ok; apply _. Defined.

(** How often an event occurs in a trace. *)
Definition count_ev (e : Event) (tr : Trace) : nat :=
  length (filter (fun x => x.1 = e) tr).

(** The events of [tr] that were added on top of [tr0]. *)
Definition since (tr0 tr : Trace) : Trace := take (length tr - length tr0) tr.

(** The world [w] with the closure replaced and [evs] added to the trace. *)
Definition upd (w : World) (c : Closure) (evs : Trace) : World :=
  mkWorld c (w_freed w) (w_contexts w) (w_pending w) (w_keep_alive w)
          (w_retval w) (evs ++ w_trace w).

(** ** Worlds, predicates and statements used by the theorems *)

Definition agree_on_invalid (i1 i2 : M unit) : Prop :=
  forall w, is_invalid (w_closure w) = true -> i1 w = i2 w.

(** The world in which the invalidate notifier is entered. *)
Definition notifier_entry (w : World) : World :=
  let c := w_closure w in
  let c' := mkClosure (S (ref_count c)) true (runtime c) (context c) (obj c)
                      (unref_on_global_object_finalized c) in
  upd w c' [(EvInvalidateNotify, c')].

(** [tr0] is the trace at the moment the bridge is handed to its first
    caller; the events after it are the ones a caller can be part of. *)
Definition snapshots_ok (tr0 tr : Trace) : Prop :=
  exists new, tr = new ++ tr0 /\ Forall (fun x => triple_ok x.2) new.

Definition Inv (tr0 : Trace) (w : World) : Prop :=
  let c := w_closure w in
  snapshots_ok tr0 (w_trace w) /\
  match obj c with
  | Some o =>
      exists cx rt,
        context c = Some cx /\ runtime c = Some rt /\ is_invalid c = false /\
        w_freed w = false /\ 1 <= ref_count c /\
        Forall (fun e => e = (cx, Some o)) (w_keep_alive w) /\
        count_ev EvClear (w_trace w) = 0 /\
        count_ev EvInvalidateNotify (w_trace w) = 0
  | None =>
      context c = None /\ runtime c = None /\ is_invalid c = true /\
      count_ev EvClear (w_trace w) = 1 /\
      count_ev EvInvalidateNotify (w_trace w) = 1
  end.

Definition preserves {A} (tr0 : Trace) (m : M A) : Prop :=
  forall w, Inv tr0 w -> exists a w', m w = Some (a, w') /\ Inv tr0 w'.


(** The claim as it is written, for creation: at every outgoing call that
    [gjs_closure_new] makes, the triple is all non-null or all null. *)
Definition all_or_nothing_as_claimed (w : World) (cx : JSContext)
    (callable : JSObject) : Prop :=
  forall w0,
    gjs_closure_new cx (Some callable) w = Some (tt, w0) ->
    Forall (fun x => triple_ok x.2) (since (w_trace w) (w_trace w0)).

(** A triple as [gjs_closure_new] has it when it opens its request:
    runtime and context are stored, the callable is not yet. *)
Definition triple_half_built (cx : JSContext) (c : Closure) : Prop :=
  is_Some (runtime c) /\ context c = Some cx /\ obj c = None.

(** Does the walk of [check_context_valid] find the stored context? *)
Definition stored_context_live (w : World) : bool :=
  match runtime (w_closure w) with
  | Some rt => Src.context_walk (context (w_closure w)) (contexts_of rt (w_contexts w))
  | None => false
  end.

(** What callers read off the bridge after the check: [c->obj != NULL]. *)
Definition reports_valid (w : World) : bool :=
  bool_decide (is_Some (obj (w_closure w))).

(** The world after the check has cleared the triple of a bridge that
    holds at least one reference: the notification fires from
    [invalidate_js_pointers] unless GLib had marked the closure already. *)
Definition lazily_invalidated (w : World) (rt : JSRuntime) : World :=
  let c := w_closure w in
  let cleared := mkClosure (ref_count c) (is_invalid c) None None None
                           (unref_on_global_object_finalized c) in
  let notified := mkClosure (S (ref_count c)) true None None None
                            (unref_on_global_object_finalized c) in
  let final := mkClosure (ref_count c) true None None None
                         (unref_on_global_object_finalized c) in
  upd w final
      ((if is_invalid c then [] else [(EvInvalidateNotify, notified)]) ++
       [(EvClear, cleared); (EvContextIterator rt, c)]).

(** A host with one context 7 in runtime 1, and the bridge made for
    callable 42 in it. *)
Definition w_host : World := host [(7, 1)].

Definition w_new : World :=
  default w_host (run (gjs_closure_new 7 (Some 42)) w_host).

(** The same bridge after the host has destroyed the context. *)
Definition w_dead_context : World :=
  default w_host (run (JS_DestroyContext 7) w_new).

(** The world in which GLib enters the invalidate notifier when the last
    reference of that bridge is dropped. *)
Definition w_in_notifier : World := notifier_entry w_dead_context.

(** The bridge after an invocation has found the context dead. *)
Definition w_lazily_dead : World :=
  default w_host (run (run_op (OpInvoke 0 [] [] (Returned 0%Z None))) w_dead_context).

(** The claim as it is written: on a null triple nothing happens; on a
    live context nothing changes; on a dead one the check clears the
    triple and fires the invalidate notification. *)
Definition liveness_recheck_as_claimed (w : World) : Prop :=
  exists w', check_context_valid w = Some (tt, w') /\
    (triple_null (w_closure w) -> w' = w) /\
    (triple_full (w_closure w) -> stored_context_live w = true ->
       w_closure w' = w_closure w /\ reports_valid w' = true) /\
    (triple_full (w_closure w) -> stored_context_live w = false ->
       triple_null (w_closure w') /\ reports_valid w' = false /\
       count_ev EvClear (since (w_trace w) (w_trace w')) = 1 /\
       count_ev EvInvalidateNotify (since (w_trace w) (w_trace w')) = 1).

(** Events by which [gjs_closure_invoke] would touch the engine other
    than by walking the runtime's contexts. *)
Definition touches_engine (e : Event) : bool :=
  match e with
  | EvBeginRequest _ | EvEndRequest _ | EvPopArguments _
  | EvCallFunction _ _ _ _ | EvLogException _
  | EvKeepAliveAdd _ _ | EvKeepAliveRemove _ _ => true
  | _ => false
  end.

(** A call primitive that aborts the run as soon as it is entered: a run
    that passes through [gjs_closure_invoke] with it has not dispatched. *)
Definition never_called : JSContext -> JSObject -> nat -> list jsval -> M bool :=
  fun _ _ _ _ => abort.

(** A bridge that is already invalidated, or whose context has left the
    runtime without the bridge being told. *)
Definition dead_bridge (w : World) : Prop :=
  triple_null (w_closure w) \/
  (triple_full (w_closure w) /\ stored_context_live w = false).

(** The bridge of the examples after its only reference is dropped. *)
Definition w_unref : World := default w_host (run (run_op OpUnref) w_new).

(** The claim as it is written: whatever is done to a bridge, each
    invalidate notification finds the triple already null. *)
Definition clear_then_notify_as_claimed (w0 : World) : Prop :=
  forall ops w1,
    run_ops ops w0 = Some (tt, w1) ->
    Forall (fun x => x.1 = EvInvalidateNotify -> triple_null x.2)
           (since (w_trace w0) (w_trace w1)).

(** The exceptions reported in a trace, newest first. *)
Definition reports (tr : Trace) : list Exn :=
  omap (fun x => match x.1 with EvLogException e => Some e | _ => None end) tr.

Definition raises (out : CallOutcome) : option Exn :=
  match out with Returned _ exn => exn | Failed exn => exn end.

(** The claim as it is written: when the callable raises, the invocation
    reports exactly one exception and leaves no exception pending. *)
Definition one_report_as_claimed (w : World) : Prop :=
  forall out e argc argv w' cx,
    raises out = Some e ->
    context (w_closure w) = Some cx ->
    gjs_closure_invoke (engine_call (ret tt) out) argc argv w = Some (tt, w') ->
    length (reports (since (w_trace w) (w_trace w'))) = 1 /\
    w_pending w' !! cx = None.

(** The new bridge of the examples, with exception 3 still pending on its
    context. *)
Definition w_stale_exception : World :=
  default w_host (run (run_op (OpThrow 7 3)) w_new).

(** The world in which a valid bridge dispatches its callable: the
    contexts were walked, the request is open, and an exception that was
    still pending has been reported and cleared. *)
Definition at_dispatch (w : World) (rt : JSRuntime) (cx : JSContext) : World :=
  let c := w_closure w in
  let opened := (EvBeginRequest cx, c) :: (EvContextIterator rt, c) :: w_trace w in
  match w_pending w !! cx with
  | Some stale =>
      mkWorld c (w_freed w) (w_contexts w) (delete cx (w_pending w))
              (w_keep_alive w) (w_retval w) ((EvLogException stale, c) :: opened)
  | None =>
      mkWorld c (w_freed w) (w_contexts w) (w_pending w)
              (w_keep_alive w) (w_retval w) opened
  end.

(** The world in which a callable that answers success with exception 5
    pending hands control back, on the bridge with the stale exception. *)
Definition w_after_call : World :=
  match engine_call (ret tt) (Returned 9%Z (Some 5)) 7 42 0 []
                    (at_dispatch w_stale_exception 1 7) with
  | Some (_, w2) => w2
  | None => w_host
  end.

(** The bridge of the examples, lazily invalidated by an invocation, after
    its owner drops the only reference, and after the collector then
    finalizes the context's global object. *)
Definition w_released : World :=
  default w_host (run (run_op OpUnref) w_lazily_dead).

Definition w_late_notifier : World :=
  default w_host (run (run_op (OpGlobalFinalized 7)) w_released).

(** The engine requests on [cx] that a trace has opened and not closed:
    [JS_BeginRequest] counts up, [JS_EndRequest] counts down. *)
Definition request_depth (cx : JSContext) (tr : Trace) : Z :=
  (Z.of_nat (count_ev (EvBeginRequest cx) tr)
   - Z.of_nat (count_ev (EvEndRequest cx) tr))%Z.

(** What one event does to the depth of the requests on [cx]. *)
Definition request_delta (cx : JSContext) (e : Event) : Z :=
  match e with
  | EvBeginRequest x => if decide (x = cx) then 1%Z else 0%Z
  | EvEndRequest x => if decide (x = cx) then (-1)%Z else 0%Z
  | _ => 0%Z
  end.

(** A call primitive that always comes back, and one that closes the
    requests it opens. *)
Definition call_returns (call : JSContext -> JSObject -> nat -> list jsval -> M bool)
    : Prop :=
  forall x o n a v, is_Some (call x o n a v).

Definition call_request_neutral
    (call : JSContext -> JSObject -> nat -> list jsval -> M bool) : Prop :=
  forall x o n a v ok v',
    call x o n a v = Some (ok, v') ->
    forall y, request_depth y (w_trace v') = request_depth y (w_trace v).

(** What [gjs_closure_invoke] adds to a trace after the call primitive has
    come back: the report of the exception that is pending, if one is. *)
Definition report_of (p : option Exn) (c : Closure) : Trace :=
  match p with
  | Some e => [(EvLogException e, c)]
  | None => []
  end.

(** *** Callers that hold references *)






(** ** Basic facts *)

Lemma count_ev_cons e x tr :
  count_ev e (x :: tr) = (if decide (x.1 = e) then 1 else 0) + count_ev e tr.
Proof.
  unfold count_ev. rewrite filter_cons. destruct (decide (x.1 = e)); reflexivity.
Qed.


Lemma count_ev_nil e : count_ev e [] = 0.
Proof. reflexivity. Qed.

Lemma bind_eq {A B} (m : M A) (k : A -> M B) w a w' :
  m w = Some (a, w') -> bind m k w = k a w'.
Proof. unfold bind. intros ->. reflexivity. Qed.

Lemma runtime_of_contexts_of cx rt l :
  cx ∈ contexts_of rt l -> is_Some (runtime_of cx l).
Proof.
  induction l as [|[a r] l IH]; simpl.
  - intros H. inversion H.
  - destruct (Nat.eqb_spec a cx) as [->|Hne]; [eauto|].
    destruct (Nat.eqb r rt); [|exact IH].
    intros [->|H]%elem_of_cons; [congruence | auto].
Qed.

Lemma context_walk_true target ctxs :
  Src.context_walk target ctxs = true <-> exists a, target = Some a /\ a ∈ ctxs.
Proof.
  induction ctxs as [|a rest IH]; simpl.
  - split; [discriminate | intros (a & _ & H); inversion H].
  - case_bool_decide as Ha.
    + split; [|reflexivity]. intros _. exists a. split; [done | left].
    + rewrite IH. split.
      * intros (b & -> & Hb). exists b. split; [done | by right].
      * intros (b & -> & [->|Hb]%elem_of_cons); [done | eauto].
Qed.

(** Unfolding of the monad and of the straight-line primitives. *)
Ltac munfold :=
  unfold Src.closure_invalidated, Src.check_context_valid,
    Src.invalidate_js_pointers, Src.clear_triple,
    gjs_keep_alive_remove_global_child, gjs_keep_alive_add_global_child,
    JS_ContextIterator, JS_BeginRequest, JS_EndRequest, JS_PopArguments,
    JS_IsExceptionPending, JS_GetRuntime, closure_finalized,
    g_closure_unref_with, g_closure_ref, g_assert, is_live,
    set_obj, set_context, set_runtime, set_is_invalid, set_ref_count,
    set_unref_on_global_object_finalized, set_keep_alive, set_pending,
    set_retval, set_contexts, set_freed,
    emit, put_c, get_c, abort, ret, bind in *.

Ltac msimpl := munfold; simpl in *.

(** ** [g_closure_invalidate] needs no more fuel than it is given *)

(** Inside the invalidate notifier the closure is already marked invalid,
    and there a nested [g_closure_invalidate] returns at once, whatever
    its fuel. *)
Lemma g_closure_invalidate_n_invalid notifier n w :
  is_invalid (w_closure w) = true ->
  g_closure_invalidate_n notifier n w = Some (tt, w).
Proof.
  intros H. destruct n; simpl; unfold bind, get_c; rewrite H; reflexivity.
Qed.

Lemma closure_invalidated_agree i1 i2 w :
  agree_on_invalid i1 i2 ->
  is_invalid (w_closure w) = true ->
  Src.closure_invalidated i1 w = Src.closure_invalidated i2 w.
Proof.
  intros Hag Hinv.
  destruct w as [[rc inv rt cx o fl] fr ctxs pend ka rv tr]; simpl in Hinv; subst inv.
  destruct o as [o|]; [|reflexivity].
  destruct rt as [rt|]; [|reflexivity].
  unfold Src.closure_invalidated, Src.check_context_valid, bind; simpl.
  destruct (Src.context_walk cx (contexts_of rt ctxs)); [reflexivity|].
  unfold Src.invalidate_js_pointers, bind; simpl.
  rewrite Hag by reflexivity. reflexivity.
Qed.

Lemma closure_invalidated_keeps_invalid w w' :
  is_invalid (w_closure w) = true ->
  Src.closure_invalidated (ret tt) w = Some (tt, w') ->
  is_invalid (w_closure w') = true.
Proof.
  intros Hinv.
  destruct w as [[rc inv rt cx o fl] fr ctxs pend ka rv tr]; simpl in Hinv; subst inv.
  msimpl.
  repeat (case_match; simpl in *; simplify_eq; try done);
    intros; simplify_eq; done.
Qed.

Lemma ret_agree i :
  (forall w, is_invalid (w_closure w) = true -> i w = Some (tt, w)) ->
  agree_on_invalid i (ret tt).
Proof. intros H w Hw. rewrite H by done. reflexivity. Qed.

Lemma g_closure_unref_with_agree i1 i2 w :
  agree_on_invalid i1 i2 ->
  is_invalid (w_closure w) = true ->
  g_closure_unref_with i1 w = g_closure_unref_with i2 w.
Proof.
  intros Hag Hinv. unfold g_closure_unref_with, bind, get_c.
  destruct (Nat.eqb (ref_count (w_closure w)) 0); [reflexivity|].
  destruct (Nat.eqb (ref_count (w_closure w)) 1); [|reflexivity].
  rewrite Hag by done. reflexivity.
Qed.

Lemma g_closure_invalidate_n_S notifier n w :
  is_invalid (w_closure w) = false ->
  g_closure_invalidate_n notifier (S n) w =
  (g_closure_ref;;
   set_is_invalid true;;
   emit EvInvalidateNotify;;
   notifier (g_closure_invalidate_n notifier n);;
   g_closure_unref_with (g_closure_invalidate_n notifier n)) w.
Proof.
  intros H. cbn [g_closure_invalidate_n]. unfold bind at 1. unfold get_c at 1.
  rewrite H. reflexivity.
Qed.

Lemma g_closure_invalidate_n_entry notifier n w :
  is_invalid (w_closure w) = false ->
  g_closure_invalidate_n notifier (S n) w =
  (notifier (g_closure_invalidate_n notifier n);;
   g_closure_unref_with (g_closure_invalidate_n notifier n)) (notifier_entry w).
Proof.
  intros H. rewrite g_closure_invalidate_n_S by done.
  destruct w as [[rc inv rt cx o fl] fr ctxs pend ka rv tr]. reflexivity.
Qed.

(** Any amount of fuel from 1 on gives the result of [g_closure_invalidate]. *)
Lemma g_closure_invalidate_fuel n w :
  g_closure_invalidate_n Src.closure_invalidated (S n) w = g_closure_invalidate w.
Proof.
  unfold g_closure_invalidate.
  destruct (is_invalid (w_closure w)) eqn:Hinv.
  { rewrite !g_closure_invalidate_n_invalid by done. reflexivity. }
  rewrite !g_closure_invalidate_n_entry by done.
  set (i1 := g_closure_invalidate_n Src.closure_invalidated n).
  set (i0 := g_closure_invalidate_n Src.closure_invalidated 0).
  assert (H1 : agree_on_invalid i1 (ret tt))
    by (apply ret_agree; intros; by apply g_closure_invalidate_n_invalid).
  assert (H0 : agree_on_invalid i0 (ret tt))
    by (apply ret_agree; intros; by apply g_closure_invalidate_n_invalid).
  unfold bind.
  rewrite (closure_invalidated_agree i1 (ret tt)) by done.
  rewrite (closure_invalidated_agree i0 (ret tt)) by done.
  destruct (Src.closure_invalidated (ret tt) _) as [[[] w1]|] eqn:Hn; [|reflexivity].
  apply closure_invalidated_keeps_invalid in Hn; [|reflexivity].
  rewrite (g_closure_unref_with_agree i1 (ret tt)) by done.
  rewrite (g_closure_unref_with_agree i0 (ret tt)) by done.
  reflexivity.
Qed.

(** So the invalidate notifier can be run against a nested
    [g_closure_invalidate] that does nothing. *)
Lemma g_closure_invalidate_entry w :
  is_invalid (w_closure w) = false ->
  g_closure_invalidate w =
  (Src.closure_invalidated (ret tt);; g_closure_unref_with (ret tt)) (notifier_entry w).
Proof.
  intros H. unfold g_closure_invalidate. rewrite g_closure_invalidate_n_entry by done.
  set (i0 := g_closure_invalidate_n Src.closure_invalidated 0).
  assert (H0 : agree_on_invalid i0 (ret tt))
    by (apply ret_agree; intros; by apply g_closure_invalidate_n_invalid).
  unfold bind.
  rewrite (closure_invalidated_agree i0 (ret tt)) by done.
  destruct (Src.closure_invalidated (ret tt) _) as [[[] w1]|] eqn:Hn; [|reflexivity].
  apply closure_invalidated_keeps_invalid in Hn; [|reflexivity].
  rewrite (g_closure_unref_with_agree i0 (ret tt)) by done.
  reflexivity.
Qed.

Lemma g_closure_invalidate_invalid w :
  is_invalid (w_closure w) = true -> g_closure_invalidate w = Some (tt, w).
Proof. apply g_closure_invalidate_n_invalid. Qed.

(** ** The invariant of a bridge between operations *)

Lemma Inv_triple_ok tr0 w : Inv tr0 w -> triple_ok (w_closure w).
Proof.
  intros [_ H]. destruct (obj (w_closure w)) eqn:Ho.
  - destruct H as (cx & rt & Hc & Hr & _). right. unfold triple_full.
    rewrite Ho, Hc, Hr. eauto.
  - destruct H as (Hc & Hr & _). left. done.
Qed.

Lemma walk_live cx rt ctxs :
  Src.context_walk (Some cx) (contexts_of rt ctxs) = true ->
  bool_decide (is_Some (runtime_of cx ctxs)) = true.
Proof.
  intros (a & [= <-] & Ha)%context_walk_true.
  apply bool_decide_eq_true. by eapply runtime_of_contexts_of.
Qed.

Lemma snapshots_ok_cons tr0 tr x :
  snapshots_ok tr0 tr -> triple_ok x.2 -> snapshots_ok tr0 (x :: tr).
Proof.
  intros (new & -> & H) Hx. exists (x :: new). split; [reflexivity|].
  by apply Forall_cons.
Qed.

Lemma snapshots_ok_refl tr0 : snapshots_ok tr0 tr0.
Proof. exists []. split; [reflexivity | constructor]. Qed.

(** Closing an [Inv] goal about an explicit world: each new event has an
    all-or-nothing snapshot, and the counts are computed. *)
Ltac snap_ok :=
  simpl;
  repeat (apply snapshots_ok_cons;
          [ | first [ left; repeat split; reflexivity
                    | right; repeat split; simpl; eauto ] ]);
  try assumption.

Ltac count_ok :=
  repeat (rewrite count_ev_cons; simpl); try assumption; try lia.

Ltac inv_ok :=
  split;
  [ snap_ok
  | simpl; try (eexists _, _); repeat split; try reflexivity; try assumption; count_ok ].

Lemma preserves_ret {A} tr0 (a : A) : preserves tr0 (ret a).
Proof. intros w H. eauto. Qed.

Lemma preserves_bind {A B} tr0 (m : M A) (k : A -> M B) :
  preserves tr0 m -> (forall a, preserves tr0 (k a)) -> preserves tr0 (bind m k).
Proof.
  intros Hm Hk w H. destruct (Hm w H) as (a & w1 & E1 & H1).
  destruct (Hk a w1 H1) as (b & w2 & E2 & H2).
  exists b, w2. split; [|done]. unfold bind. rewrite E1. exact E2.
Qed.

Lemma preserves_g_closure_invalidate tr0 : preserves tr0 g_closure_invalidate.
Proof.
  intros w H. destruct w as [[rc inv rt cx o fl] fr ctxs pend ka rv tr].
  destruct H as [Hsn H]; simpl in *.
  destruct o as [o|].
  - destruct H as (cx' & rt' & -> & -> & -> & -> & Hrc & Hka & Hc & Hn).
    rewrite g_closure_invalidate_entry by done.
    unfold notifier_entry, upd; simpl.
    destruct (Src.context_walk (Some cx') (contexts_of rt' ctxs)) eqn:Hw.
    + msimpl. rewrite Hw. simpl.
      rewrite (walk_live _ _ _ Hw). simpl.
      destruct rc as [|rc]; simpl; eexists _, _; (split; [reflexivity|]); inv_ok.
    + msimpl. rewrite Hw. simpl.
      destruct rc as [|rc]; simpl; eexists _, _; (split; [reflexivity|]); inv_ok.
  - destruct H as (-> & -> & -> & Hc & Hn).
    rewrite g_closure_invalidate_invalid by done.
    eexists _, _; split; [reflexivity|]. inv_ok.
Qed.

Ltac inv_cases w H :=
  destruct w as [[rc inv rt cx o fl] fr ctxs pend ka rv tr];
  destruct H as [Hsn H]; simpl in *;
  destruct o as [o|];
  [ destruct H as (cx' & rt' & -> & -> & -> & -> & Hrc & Hka & Hc & Hn)
  | destruct H as (-> & -> & -> & Hc & Hn) ].

Ltac done_with_inv := eexists _, _; (split; [reflexivity|]); inv_ok.

(** Rewriting the calls of [g_closure_invalidate] that are left after
    unfolding: on a marked closure it returns, on an unmarked one the
    notifier is entered. *)
Ltac invalidate_calls :=
  repeat first
    [ rewrite g_closure_invalidate_invalid by reflexivity
    | rewrite g_closure_invalidate_entry by reflexivity;
      unfold notifier_entry, upd ];
  msimpl.

Lemma preserves_check_context_valid tr0 : preserves tr0 check_context_valid.
Proof.
  intros w H. inv_cases w H; unfold check_context_valid.
  - msimpl.
    destruct (Src.context_walk (Some cx') (contexts_of rt' ctxs)) eqn:Hw; simpl.
    + done_with_inv.
    + invalidate_calls. destruct rc as [|rc]; simpl; done_with_inv.
  - msimpl. done_with_inv.
Qed.

Lemma preserves_g_closure_unref tr0 : preserves tr0 g_closure_unref.
Proof.
  intros w H. inv_cases w H; unfold g_closure_unref.
  - destruct rc as [|[|rc]]; [lia| |].
    + msimpl. invalidate_calls.
      destruct (Src.context_walk (Some cx') (contexts_of rt' ctxs)) eqn:Hw; simpl.
      * rewrite (walk_live _ _ _ Hw). simpl. done_with_inv.
      * done_with_inv.
    + msimpl. done_with_inv.
  - msimpl. destruct rc as [|[|rc]]; simpl; invalidate_calls; done_with_inv.
Qed.

Lemma preserves_g_closure_ref tr0 : preserves tr0 g_closure_ref.
Proof. intros w H. inv_cases w H; msimpl; done_with_inv. Qed.

Lemma preserves_emit tr0 e :
  e <> EvClear -> e <> EvInvalidateNotify -> preserves tr0 (emit e).
Proof.
  intros H1 H2 w H. inv_cases w H; msimpl.
  - eexists _, _; (split; [reflexivity|]). split; [snap_ok|].
    simpl. eexists _, _. repeat split; try done;
      rewrite count_ev_cons; simpl; by rewrite decide_False.
  - eexists _, _; (split; [reflexivity|]). split; [snap_ok|].
    simpl. repeat split; try done;
      rewrite count_ev_cons; simpl; by rewrite decide_False.
Qed.

(** Stores to the engine's or the caller's part of the world. *)
Lemma Inv_frame tr0 w ctxs pend rv :
  Inv tr0 w ->
  Inv tr0 (mkWorld (w_closure w) (w_freed w) ctxs pend (w_keep_alive w) rv (w_trace w)).
Proof. intros H. exact H. Qed.

Lemma preserves_gjs_log_exception tr0 cx : preserves tr0 (gjs_log_exception cx).
Proof.
  intros w H. unfold gjs_log_exception.
  destruct (w_pending w !! cx) as [e|]; [|by eauto].
  apply preserves_bind; [| | exact H].
  - intros w1 H1. eexists _, _. split; [reflexivity|]. by apply Inv_frame.
  - intros _. apply preserves_bind; [by apply preserves_emit|].
    intros _. apply preserves_ret.
Qed.

Lemma preserves_leave_pending tr0 cx exn : preserves tr0 (leave_pending cx exn).
Proof.
  intros w H. unfold leave_pending. destruct exn; [|by eauto].
  eexists _, _. split; [reflexivity|]. by apply Inv_frame.
Qed.

Lemma preserves_JS_DestroyContext tr0 cx : preserves tr0 (JS_DestroyContext cx).
Proof.
  intros w H. eexists _, _. split; [reflexivity|]. by apply Inv_frame.
Qed.

Lemma preserves_client {A} tr0 (m : M A) : preserves tr0 m -> preserves tr0 (client m).
Proof.
  intros Hm w H. unfold client. destruct (w_freed w); [by eauto|].
  apply preserves_bind; [done | intros; apply preserves_ret | done].
Qed.

Lemma preserves_engine_call tr0 body out cx callee argc argv :
  preserves tr0 body -> preserves tr0 (engine_call body out cx callee argc argv).
Proof.
  intros Hb. unfold engine_call.
  apply preserves_bind; [by apply preserves_emit|]. intros _.
  apply preserves_bind; [done|]. intros _.
  destruct out.
  - apply preserves_bind.
    { intros w H. eexists _, _. split; [reflexivity|]. by apply Inv_frame. }
    intros _. apply preserves_bind; [apply preserves_leave_pending|].
    intros _. apply preserves_ret.
  - apply preserves_bind; [apply preserves_leave_pending|].
    intros _. apply preserves_ret.
Qed.

Section InvokePreserves.

Variable tr0 : Trace.
Variable call : JSContext -> JSObject -> nat -> list jsval -> M bool.
Hypothesis call_preserves :
  forall cx callee argc argv, preserves tr0 (call cx callee argc argv).

Lemma preserves_gjs_closure_invoke argc argv :
  preserves tr0 (gjs_closure_invoke call argc argv).
Proof.
  unfold gjs_closure_invoke.
  apply preserves_bind; [apply preserves_check_context_valid|]. intros _ w H.
  unfold bind at 1. unfold get_c at 1.
  destruct (obj (w_closure w)) as [callee|] eqn:Ho.
  - pose proof H as [_ H']. rewrite Ho in H'.
    destruct H' as (cx & rt & -> & _).
    apply preserves_bind; [by apply preserves_emit | | exact H]. intros _.
    apply preserves_bind.
    { intros w1 H1. eexists _, _. split; [reflexivity | exact H1]. }
    intros pending. apply preserves_bind.
    { destruct pending; [|apply preserves_ret].
      apply preserves_bind; [apply preserves_gjs_log_exception|].
      intros _. apply preserves_ret. }
    intros _. apply preserves_bind; [apply call_preserves|].
    intros ok. destruct ok; simpl;
      (apply preserves_bind; [apply preserves_gjs_log_exception|]);
      intros _; by apply preserves_emit.
  - destruct w as [[rc inv rt cx o fl] fr ctxs pend ka rv tr].
    simpl in Ho; subst o. destruct H as [Hsn H]; simpl in *.
    destruct H as (-> & -> & -> & Hc & Hn). msimpl. done_with_inv.
Qed.

Lemma preserves_gjs_closure_invoke_simple cx format pushed :
  preserves tr0 (gjs_closure_invoke_simple call cx format pushed).
Proof.
  unfold gjs_closure_invoke_simple.
  apply preserves_bind; [by apply preserves_emit|]. intros _.
  destruct pushed as [argv|]; [|apply preserves_ret].
  apply preserves_bind; [apply preserves_gjs_closure_invoke|]. intros _.
  apply preserves_bind; [by apply preserves_emit|]. intros _.
  apply preserves_bind; [by apply preserves_emit|]. intros _.
  apply preserves_ret.
Qed.

End InvokePreserves.

Lemma preserves_gjs_closure_get_context tr0 : preserves tr0 gjs_closure_get_context.
Proof.
  unfold gjs_closure_get_context.
  apply preserves_bind; [apply preserves_check_context_valid|]. intros _ w H.
  eexists _, _. split; [reflexivity | exact H].
Qed.

Lemma preserves_gjs_closure_get_callable tr0 : preserves tr0 gjs_closure_get_callable.
Proof. intros w H. eexists _, _. split; [reflexivity | exact H]. Qed.

(** The registry notifier, for a child that was registered with the
    closure's callable.  Afterwards the triple is null. *)
Lemma global_context_finalized_Inv tr0 watched w :
  Inv tr0 w ->
  (forall o', obj (w_closure w) = Some o' -> watched = Some o') ->
  exists w', global_context_finalized watched w = Some (tt, w') /\ Inv tr0 w' /\
             obj (w_closure w') = None.
Proof.
  intros H Ho. inv_cases w H; unfold global_context_finalized, invalidate_js_pointers,
    g_closure_unref.
  - rewrite (Ho o eq_refl). msimpl. rewrite bool_decide_eq_true_2 by done.
    invalidate_calls.
    destruct fl; simpl.
    + destruct rc as [|[|[|rc]]]; simpl; invalidate_calls;
        (eexists; split; [reflexivity|]; split; [inv_ok | reflexivity]).
    + destruct rc as [|rc]; simpl;
        (eexists; split; [reflexivity|]; split; [inv_ok | reflexivity]).
  - msimpl. destruct fl; simpl.
    + destruct rc as [|[|rc]]; simpl; invalidate_calls;
        (eexists; split; [reflexivity|]; split; [inv_ok | reflexivity]).
    + eexists; split; [reflexivity|]; split; [inv_ok | reflexivity].
Qed.

Lemma Forall_filter_keep {A} (P Q : A -> Prop) `{forall x, Decision (Q x)} (l : list A) :
  Forall P l -> Forall P (filter Q l).
Proof.
  rewrite !Forall_forall. intros Hl x [_ Hx]%list_elem_of_filter. by apply Hl.
Qed.

Lemma fire_Inv tr0 entries w :
  Inv tr0 w ->
  (forall o', obj (w_closure w) = Some o' -> Forall (fun e => e.2 = Some o') entries) ->
  exists w', fire entries w = Some (tt, w') /\ Inv tr0 w'.
Proof.
  revert w. induction entries as [|[x o] rest IH]; intros w H Hent; simpl.
  - eauto.
  - unfold bind at 1. destruct (w_freed w) eqn:Hfr.
    + destruct (preserves_emit tr0 EvUseAfterFree ltac:(done) ltac:(done) w H)
        as ([] & w1 & E1 & H1).
      rewrite E1. apply IH; [done|].
      assert (w_closure w1 = w_closure w) as ->
          by (unfold emit in E1; by simplify_eq).
      intros o' Ho'. specialize (Hent o' Ho'). by inversion Hent.
    + destruct (global_context_finalized_Inv tr0 o w H) as (w1 & E1 & H1 & Hn).
      { intros o' Ho'. specialize (Hent o' Ho'). by inversion Hent. }
      rewrite E1. apply IH; [done|]. intros o'. rewrite Hn. discriminate.
Qed.

Lemma preserves_keep_alive_fire tr0 cx : preserves tr0 (keep_alive_fire cx).
Proof.
  intros w H. unfold keep_alive_fire.
  set (mine := filter (fun e => e.1 = cx) (w_keep_alive w)).
  set (others := filter (fun e => e.1 <> cx) (w_keep_alive w)).
  unfold bind, set_keep_alive.
  destruct (fire_Inv tr0 mine
              (mkWorld (w_closure w) (w_freed w) (w_contexts w) (w_pending w) others
                       (w_retval w) (w_trace w))) as (w' & E & H').
  - destruct H as [Hsn H]. split; [exact Hsn|]. simpl.
    destruct (obj (w_closure w)); [|exact H].
    destruct H as (c & r & ? & ? & ? & ? & ? & Hka & ? & ?). exists c, r.
    split_and!; try done. subst others. by apply Forall_filter_keep.
  - simpl. intros o' Ho'. destruct H as [_ H]. rewrite Ho' in H.
    destruct H as (c & r & _ & _ & _ & _ & _ & Hka & _).
    subst mine. apply Forall_filter_keep.
    eapply Forall_impl; [exact Hka|]. by intros ? ->.
  - exists tt, w'. split; [exact E | exact H'].
Qed.

(** Induction over operations, with the callable's own operations as
    induction hypotheses. *)
Lemma Op_nested_ind (P : Op -> Prop) :
  (forall argc argv body out, Forall P body -> P (OpInvoke argc argv body out)) ->
  (forall cx format pushed body out,
      Forall P body -> P (OpInvokeSimple cx format pushed body out)) ->
  P OpGetContext -> P OpGetCallable -> P OpRef -> P OpUnref -> P OpInvalidate ->
  (forall cx, P (OpDestroyContext cx)) ->
  (forall cx, P (OpGlobalFinalized cx)) ->
  (forall cx e, P (OpThrow cx e)) ->
  forall o, P o.
Proof.
  intros Hinvoke Hsimple Hgc Hgo Href Hunref Hinval Hdestroy Hfinal Hthrow.
  fix IH 1. intros [argc argv body out|cx format pushed body out| | | | | |cx|cx|cx e].
  - apply Hinvoke. induction body as [|o body IHbody]; constructor; [apply IH | exact IHbody].
  - apply Hsimple. induction body as [|o body IHbody]; constructor; [apply IH | exact IHbody].
  - exact Hgc.
  - exact Hgo.
  - exact Href.
  - exact Hunref.
  - exact Hinval.
  - apply Hdestroy.
  - apply Hfinal.
  - apply Hthrow.
Qed.

Lemma preserves_foldr tr0 (body : list Op) :
  Forall (fun o => preserves tr0 (run_op o)) body ->
  preserves tr0 (foldr (fun o' k => run_op o';; k) (ret tt) body).
Proof.
  induction 1 as [|o body Ho _ IH]; simpl.
  - apply preserves_ret.
  - apply preserves_bind; [exact Ho | intros _; exact IH].
Qed.

(** Every operation keeps the invariant, and none aborts. *)
Lemma preserves_run_op tr0 o : preserves tr0 (run_op o).
Proof.
  induction o using Op_nested_ind; simpl.
  - apply preserves_client, preserves_gjs_closure_invoke. intros.
    by apply preserves_engine_call, preserves_foldr.
  - apply preserves_client, preserves_gjs_closure_invoke_simple. intros.
    by apply preserves_engine_call, preserves_foldr.
  - apply preserves_client, preserves_gjs_closure_get_context.
  - apply preserves_client, preserves_gjs_closure_get_callable.
  - apply preserves_client, preserves_g_closure_ref.
  - apply preserves_client, preserves_g_closure_unref.
  - apply preserves_client, preserves_g_closure_invalidate.
  - apply preserves_JS_DestroyContext.
  - apply preserves_keep_alive_fire.
  - apply preserves_leave_pending.
Qed.

Lemma preserves_run_ops tr0 l : preserves tr0 (run_ops l).
Proof.
  apply preserves_foldr, Forall_forall. intros o _. apply preserves_run_op.
Qed.

Lemma bind_step {A B} (m : M A) (k : A -> M B) w a w' r :
  m w = Some (a, w') -> k a w' = r -> bind m k w = r.
Proof. intros H <-. by apply bind_eq. Qed.

(** One statement of a straight-line function. *)
Ltac mstep := eapply bind_step; [msimpl; reflexivity | cbv beta].

(** [gjs_closure_new] on a live context, statement by statement. *)
Lemma gjs_closure_new_eq w cx callable rt :
  runtime_of cx (w_contexts w) = Some rt ->
  gjs_closure_new cx callable w =
  let c1 := mkClosure 1 false (Some rt) (Some cx) None false in
  let c2 := mkClosure 1 false (Some rt) (Some cx) callable false in
  Some (tt, mkWorld c2 false (w_contexts w) (w_pending w)
                    ((cx, callable) :: w_keep_alive w) (w_retval w)
                    ((EvEndRequest cx, c2) :: (EvKeepAliveAdd cx callable, c2) ::
                     (EvIncCounter, c2) :: (EvBeginRequest cx, c1) :: w_trace w)).
Proof.
  intros Hrt. destruct w as [c fr ctxs pend ka rv tr]. simpl in Hrt.
  unfold gjs_closure_new.
  mstep.
  eapply bind_step;
    [unfold JS_GetRuntime; simpl; rewrite Hrt; reflexivity | cbv beta].
  do 7 mstep.
  eapply bind_step;
    [unfold gjs_keep_alive_add_global_child, is_live; simpl; rewrite Hrt; reflexivity
    | cbv beta].
  reflexivity.
Qed.

(** [gjs_closure_new] on a live context and a callable that is not NULL
    hands out an active bridge. *)
Lemma gjs_closure_new_Inv w cx callable :
  is_live cx w = true ->
  w_keep_alive w = [] ->
  count_ev EvClear (w_trace w) = 0 ->
  count_ev EvInvalidateNotify (w_trace w) = 0 ->
  exists w', gjs_closure_new cx (Some callable) w = Some (tt, w') /\
             Inv (w_trace w') w' /\
             w_closure w' = mkClosure 1 false (runtime_of cx (w_contexts w))
                                      (Some cx) (Some callable) false /\
             w_freed w' = false.
Proof.
  intros Hlive Hka Hc Hn. unfold is_live in Hlive.
  apply bool_decide_eq_true in Hlive. destruct Hlive as [rt Hrt].
  rewrite (gjs_closure_new_eq w cx (Some callable) rt Hrt). cbv zeta.
  eexists. split; [reflexivity|]. rewrite Hrt. split; [|done].
  split; [apply snapshots_ok_refl|]. simpl.
  exists cx, rt. rewrite Hka. split_and!; try done; [by repeat constructor | count_ok ..].
Qed.

Lemma since_app (new tr0 : Trace) : since tr0 (new ++ tr0) = new.
Proof.
  unfold since. rewrite length_app.
  replace (length new + length tr0 - length tr0) with (length new) by lia.
  by rewrite take_app_length.
Qed.

Lemma since_refl (tr0 : Trace) : since tr0 tr0 = [].
Proof. apply (since_app [] tr0). Qed.

(** Reading off the events added to a trace that is given explicitly. *)
Ltac since_simpl :=
  repeat match goal with
  | |- context [since ?tr ?l] =>
      match l with
      | tr => rewrite (since_refl tr)
      | ?a :: tr => change (since tr l) with (since tr ([a] ++ tr))
      | ?a :: ?b :: tr => change (since tr l) with (since tr ([a; b] ++ tr))
      | ?a :: ?b :: ?c :: tr => change (since tr l) with (since tr ([a; b; c] ++ tr))
      | ?a :: ?b :: ?c :: ?d :: tr =>
          change (since tr l) with (since tr ([a; b; c; d] ++ tr))
      | ?a :: ?b :: ?c :: ?d :: ?e :: tr =>
          change (since tr l) with (since tr ([a; b; c; d; e] ++ tr))
      | ?a :: ?b :: ?c :: ?d :: ?e :: ?f :: tr =>
          change (since tr l) with (since tr ([a; b; c; d; e; f] ++ tr))
      end; rewrite ?since_app
  end.

(** ** The liveness check, case by case *)

Lemma check_context_valid_null w :
  runtime (w_closure w) = None -> check_context_valid w = Some (tt, w).
Proof.
  intros H. unfold check_context_valid, Src.check_context_valid, bind, get_c.
  rewrite H. reflexivity.
Qed.

Lemma check_context_valid_found w rt :
  runtime (w_closure w) = Some rt ->
  stored_context_live w = true ->
  check_context_valid w = Some (tt, upd w (w_closure w) [(EvContextIterator rt, w_closure w)]).
Proof.
  unfold stored_context_live. intros H Hl. rewrite H in Hl.
  destruct w as [c fr ctxs pend ka rv tr]. simpl in *.
  unfold check_context_valid. msimpl. rewrite H. simpl. rewrite Hl. reflexivity.
Qed.

Lemma check_context_valid_absent w rt o :
  runtime (w_closure w) = Some rt ->
  obj (w_closure w) = Some o ->
  1 <= ref_count (w_closure w) ->
  stored_context_live w = false ->
  check_context_valid w = Some (tt, lazily_invalidated w rt).
Proof.
  unfold stored_context_live, lazily_invalidated. intros H Ho Hrc Hl. rewrite H in Hl.
  destruct w as [[rc inv r cx ob fl] fr ctxs pend ka rv tr]. simpl in *. subst r ob.
  unfold check_context_valid. msimpl. rewrite Hl. simpl.
  destruct inv.
  - invalidate_calls. reflexivity.
  - invalidate_calls. destruct rc as [|rc]; [lia|]. reflexivity.
Qed.

(** ** C5: the liveness re-check *)

(** C5, as stated, fails: when [closure_invalidated] runs the check
    inside GLib's invalidation (here: the last unref of a bridge whose
    context is gone), the check clears the triple but the nested
    [g_closure_invalidate] fires no notification. *)
Lemma liveness_recheck_counterexample : ~ liveness_recheck_as_claimed w_in_notifier.
Proof.
  intros (w' & E & _ & _ & H).
  vm_compute in E. injection E as <-.
  destruct H as (_ & _ & _ & Hn).
  - vm_compute. eauto 10.
  - reflexivity.
  - vm_compute in Hn. discriminate.
Qed.

(** C5 (amended): the liveness re-check returns at once on a null triple,
    without a walk; otherwise it walks the runtime's contexts; when the
    stored context is found nothing changes but the trace of the walk;
    when it is absent the check clears the triple and calls
    [g_closure_invalidate], and the notification fires from that call
    exactly when GLib had not marked the closure invalid already. *)
Theorem liveness_recheck (w : World) :
  triple_ok (w_closure w) ->
  exists w', check_context_valid w = Some (tt, w') /\
    (triple_null (w_closure w) -> w' = w) /\
    (forall rt, runtime (w_closure w) = Some rt -> stored_context_live w = true ->
       w' = upd w (w_closure w) [(EvContextIterator rt, w_closure w)] /\
       reports_valid w' = true) /\
    (triple_full (w_closure w) -> stored_context_live w = false ->
       triple_null (w_closure w') /\ reports_valid w' = false /\
       count_ev EvClear (since (w_trace w) (w_trace w')) = 1 /\
       count_ev EvInvalidateNotify (since (w_trace w) (w_trace w')) =
         (if is_invalid (w_closure w) then 0 else 1)).
Proof.
  intros [(Hr & Hc & Ho)|((rt & Hr) & (cx & Hc) & (o & Ho))].
  - exists w. split; [by apply check_context_valid_null|].
    split; [done|]. split.
    + intros rt Hrt. congruence.
    + intros ((rt & Hrt) & _). congruence.
  - destruct (stored_context_live w) eqn:Hl.
    + eexists. split; [by eapply check_context_valid_found|].
      split; [intros (? & _); congruence|]. split; [|done].
      intros rt' Hrt' _. assert (rt' = rt) as -> by congruence. split; [done|].
      unfold reports_valid, upd. simpl. rewrite Ho. reflexivity.
    + destruct w as [[rc inv r c ob fl] fr ctxs pend ka rv tr].
      unfold stored_context_live in Hl. simpl in *. subst r c ob.
      unfold check_context_valid. msimpl. rewrite Hl. simpl.
      destruct inv; invalidate_calls.
      * eexists. split; [reflexivity|]. split; [intros (? & _); done|].
        split; [done|]. intros _ _. simpl. since_simpl. done.
      * destruct rc as [|rc]; simpl;
          (eexists; split; [reflexivity|]; split; [intros (? & _); done|];
           split; [done|]; intros _ _; simpl; since_simpl; done).
Qed.

Lemma liveness_recheck_witness :
  triple_ok (w_closure w_dead_context) /\
  exists w', check_context_valid w_dead_context = Some (tt, w') /\
             triple_null (w_closure w').
Proof.
  assert (H : triple_ok (w_closure w_dead_context)) by (right; vm_compute; eauto 10).
  split; [exact H|].
  destruct (liveness_recheck w_dead_context H) as (w' & E & _ & _ & Hd).
  exists w'. split; [exact E|].
  apply Hd; [vm_compute; eauto 10 | reflexivity].
Defined.

(** ** C8: introspection of an invalidated bridge *)

(** C8: once the triple of a bridge is cleared, [gjs_closure_get_context]
    returns a NULL context and [gjs_closure_get_callable] a NULL callable
    (and neither changes anything). *)
Theorem getters_null_once_invalidated (w : World) :
  triple_null (w_closure w) ->
  gjs_closure_get_context w = Some (None, w) /\
  gjs_closure_get_callable w = Some (None, w).
Proof.
  intros (Hr & Hc & Ho). split.
  - unfold gjs_closure_get_context, bind.
    rewrite check_context_valid_null by done.
    unfold get_c, ret. by rewrite Hc.
  - unfold gjs_closure_get_callable, bind, get_c, ret. by rewrite Ho.
Qed.

Lemma getters_null_once_invalidated_witness :
  triple_null (w_closure w_lazily_dead) /\
  gjs_closure_get_context w_lazily_dead = Some (None, w_lazily_dead) /\
  gjs_closure_get_callable w_lazily_dead = Some (None, w_lazily_dead).
Proof.
  assert (H : triple_null (w_closure w_lazily_dead)) by (vm_compute; done).
  split; [exact H | exact (getters_null_once_invalidated w_lazily_dead H)].
Defined.

(** ** C4 and C9: invoking a dead bridge *)

Lemma invoke_dead_bridge call argc argv w :
  dead_bridge w ->
  exists w',
    gjs_closure_invoke call argc argv w = Some (tt, w') /\
    gjs_closure_invoke never_called argc argv w = Some (tt, w') /\
    triple_null (w_closure w') /\
    w_contexts w' = w_contexts w /\ w_pending w' = w_pending w /\
    w_keep_alive w' = w_keep_alive w /\ w_retval w' = w_retval w /\
    Forall (fun x => touches_engine x.1 = false) (since (w_trace w) (w_trace w')).
Proof.
  intros [(Hr & Hc & Ho)|(((rt & Hr) & (cx & Hc) & (o & Ho)) & Hl)].
  - unfold gjs_closure_invoke, bind. rewrite check_context_valid_null by done.
    unfold get_c. rewrite Ho.
    destruct w as [[rc inv r c ob fl] fr ctxs pend ka rv tr]. simpl in *. subst.
    msimpl. eexists. split; [reflexivity|]. split; [reflexivity|].
    simpl. since_simpl. split_and!; try done.
  - destruct w as [[rc inv r c ob fl] fr ctxs pend ka rv tr].
    unfold stored_context_live in Hl. simpl in *. subst r c ob.
    unfold gjs_closure_invoke, check_context_valid. msimpl. rewrite Hl. simpl.
    destruct inv; invalidate_calls.
    + eexists. split; [reflexivity|]. split; [reflexivity|]. simpl. since_simpl.
      split_and!; try done. by repeat constructor.
    + destruct rc as [|rc]; simpl;
        (eexists; split; [reflexivity|]; split; [reflexivity|]; simpl; since_simpl;
         split_and!; try done; by repeat constructor).
Qed.

(** C4: on a bridge whose triple is null, or whose stored context is no
    longer among the runtime's contexts, [gjs_closure_invoke] returns
    normally without dispatching the callable (the run is the same with a
    call primitive that would abort it): the engine's contexts, its
    pending exceptions and the keep-alive table are as before, nothing is
    logged, and no engine request is opened. *)
Theorem invoke_dead_bridge_is_noop call argc argv (w : World) :
  dead_bridge w ->
  exists w',
    gjs_closure_invoke call argc argv w = Some (tt, w') /\
    gjs_closure_invoke never_called argc argv w = Some (tt, w') /\
    triple_null (w_closure w') /\
    w_contexts w' = w_contexts w /\ w_pending w' = w_pending w /\
    w_keep_alive w' = w_keep_alive w /\
    Forall (fun x => touches_engine x.1 = false) (since (w_trace w) (w_trace w')).
Proof.
  intros H. destruct (invoke_dead_bridge call argc argv w H)
    as (w' & E & E' & Hn & Hc & Hp & Hk & _ & Hev).
  exists w'. split_and!; done.
Qed.

Lemma invoke_dead_bridge_is_noop_witness :
  dead_bridge w_dead_context /\
  exists w',
    gjs_closure_invoke (engine_call (ret tt) (Failed (Some 5))) 0 [] w_dead_context
      = Some (tt, w') /\
    gjs_closure_invoke never_called 0 [] w_dead_context = Some (tt, w') /\
    triple_null (w_closure w') /\
    w_contexts w' = w_contexts w_dead_context /\
    w_pending w' = w_pending w_dead_context /\
    w_keep_alive w' = w_keep_alive w_dead_context /\
    Forall (fun x => touches_engine x.1 = false)
           (since (w_trace w_dead_context) (w_trace w')).
Proof.
  assert (H : dead_bridge w_dead_context) by (right; vm_compute; eauto 10).
  split; [exact H|].
  exact (invoke_dead_bridge_is_noop _ 0 [] w_dead_context H).
Defined.

(** C9: on such a bridge [gjs_closure_invoke] leaves the caller's retval
    slot as it was. *)
Theorem invoke_dead_bridge_keeps_retval call argc argv (w : World) :
  dead_bridge w ->
  exists w',
    gjs_closure_invoke call argc argv w = Some (tt, w') /\
    w_retval w' = w_retval w.
Proof.
  intros H. destruct (invoke_dead_bridge call argc argv w H)
    as (w' & E & _ & _ & _ & _ & _ & Hr & _).
  exists w'. done.
Qed.

Lemma invoke_dead_bridge_keeps_retval_witness :
  dead_bridge w_lazily_dead /\
  exists w',
    gjs_closure_invoke (engine_call (ret tt) (Returned 5%Z None)) 1 [3%Z] w_lazily_dead
      = Some (tt, w') /\
    w_retval w' = w_retval w_lazily_dead.
Proof.
  assert (H : dead_bridge w_lazily_dead) by (left; vm_compute; done).
  split; [exact H|].
  exact (invoke_dead_bridge_keeps_retval _ 1 [3%Z] w_lazily_dead H).
Defined.

(** ** C10: [gjs_closure_invoke_simple] *)

(** [gjs_closure_invoke] returns whenever the engine's call primitive
    does. *)
Lemma gjs_closure_invoke_returns call argc argv w :
  triple_ok (w_closure w) ->
  (forall cx o n a v, is_Some (call cx o n a v)) ->
  exists w', gjs_closure_invoke call argc argv w = Some (tt, w').
Proof.
  intros Hok Hcall.
  destruct (stored_context_live w) eqn:Hl; cycle 1.
  { assert (dead_bridge w) as Hd by (destruct Hok; [by left | by right]).
    destruct (invoke_dead_bridge call argc argv w Hd) as (w' & E & _). eauto. }
  destruct Hok as [(Hr & _)|((rt & Hr) & (cx & Hc) & (o & Ho))].
  { unfold stored_context_live in Hl. by rewrite Hr in Hl. }
  unfold gjs_closure_invoke, bind.
  rewrite (check_context_valid_found w rt) by done.
  unfold get_c, upd; simpl. rewrite Ho, Hc. msimpl.
  set (w1 := mkWorld _ _ _ _ _ _ _).
  destruct (bool_decide (is_Some (w_pending w !! cx))).
  - unfold gjs_log_exception at 1.
    destruct (w_pending w1 !! cx) as [e|]; msimpl.
    + match goal with |- context [call cx o argc argv ?v] =>
        destruct (Hcall cx o argc argv v) as [[ok w2] ->] end.
      destruct ok; simpl; unfold gjs_log_exception;
        destruct (w_pending w2 !! cx); msimpl; eauto.
    + destruct (Hcall cx o argc argv w1) as [[ok w2] ->].
      destruct ok; simpl; unfold gjs_log_exception;
        destruct (w_pending w2 !! cx); msimpl; eauto.
  - destruct (Hcall cx o argc argv w1) as [[ok w2] ->].
    destruct ok; simpl; unfold gjs_log_exception;
      destruct (w_pending w2 !! cx); msimpl; eauto.
Qed.

(** C10: the result of [gjs_closure_invoke_simple] tells only whether the
    arguments could be pushed.  It is FALSE exactly when
    [JS_PushArgumentsVA] fails, and then the closure is not invoked: all
    that happened is the [JS_BeginRequest].  Otherwise it is TRUE, whatever
    the state of the bridge and whatever the callable does. *)
Theorem invoke_simple_result call cx format pushed (w : World) :
  triple_ok (w_closure w) ->
  (forall x o n a v, is_Some (call x o n a v)) ->
  exists b w',
    gjs_closure_invoke_simple call cx format pushed w = Some (b, w') /\
    (b = false <-> pushed = None) /\
    (b = true <-> is_Some pushed) /\
    (pushed = None -> w' = upd w (w_closure w) [(EvBeginRequest cx, w_closure w)]).
Proof.
  intros Hok Hcall. unfold gjs_closure_invoke_simple.
  destruct pushed as [argv|].
  - assert (triple_ok (w_closure (upd w (w_closure w)
              [(EvBeginRequest cx, w_closure w)]))) as Hok' by exact Hok.
    destruct (gjs_closure_invoke_returns call (String.length format) argv _ Hok' Hcall)
      as (w1 & E1).
    eexists true, _. split.
    + unfold bind at 1. unfold JS_BeginRequest, emit.
      unfold upd in E1. simpl in E1.
      unfold bind at 1. rewrite E1. reflexivity.
    + split_and!; try done; split; try done; eauto.
  - eexists false, _. split; [reflexivity|].
    split_and!; try done; split; try done; by intros [].
Qed.

Lemma invoke_simple_result_witness :
  triple_ok (w_closure w_lazily_dead) /\
  (forall x o n a v,
      is_Some (engine_call (ret tt) (Failed (Some 5)) x o n a v)) /\
  exists b w',
    gjs_closure_invoke_simple (engine_call (ret tt) (Failed (Some 5))) 7 "i"
                              (Some [1%Z]) w_lazily_dead = Some (b, w') /\
    b = true.
Proof.
  assert (H1 : triple_ok (w_closure w_lazily_dead)) by (left; vm_compute; done).
  assert (H2 : forall x o n a v,
             is_Some (engine_call (ret tt) (Failed (Some 5)) x o n a v))
    by (intros; eexists; reflexivity).
  split; [exact H1|]. split; [exact H2|].
  destruct (invoke_simple_result (engine_call (ret tt) (Failed (Some 5))) 7 "i"
              (Some [1%Z]) w_lazily_dead H1 H2) as (b & w' & E & _ & Hb & _).
  exists b, w'. split; [exact E|]. apply Hb. eauto.
Defined.

(** ** C2 and C3: every run of a bridge *)


Lemma Inv_since tr0 w :
  Inv tr0 w -> Forall (fun x => triple_ok x.2) (since tr0 (w_trace w)).
Proof. intros [(new & -> & H) _]. by rewrite since_app. Qed.



(** A run of operations on a new bridge never aborts and keeps the
    invariant. *)
Lemma run_new_bridge w cx callable ops :
  is_live cx w = true -> w_keep_alive w = [] -> w_trace w = [] ->
  exists w0 w1,
    gjs_closure_new cx (Some callable) w = Some (tt, w0) /\
    triple_full (w_closure w0) /\
    run_ops ops w0 = Some (tt, w1) /\
    Inv (w_trace w0) w0 /\ Inv (w_trace w0) w1.
Proof.
  intros Hl Hk Ht.
  destruct (gjs_closure_new_Inv w cx callable Hl Hk) as (w0 & E0 & H0 & Hc & _);
    [by rewrite Ht..|].
  destruct (preserves_run_ops (w_trace w0) ops w0 H0) as ([] & w1 & E1 & H1).
  exists w0, w1. split_and!; try done.
  rewrite Hc. unfold is_live in Hl. apply bool_decide_eq_true in Hl.
  repeat split; simpl; eauto.
Qed.

(** C3, as stated, fails for creation: [gjs_closure_new] stores runtime
    and context, calls [JS_BeginRequest], and stores the callable only
    then, so that call is made on a triple that is neither all null nor
    all non-null. *)
Lemma triple_all_or_nothing_counterexample : ~ all_or_nothing_as_claimed w_host 7 42.
Proof.
  intros H.
  assert (E : gjs_closure_new 7 (Some 42) w_host = Some (tt, w_new))
    by (vm_compute; reflexivity).
  specialize (H _ E).
  assert (Hs : since (w_trace w_host) (w_trace w_new) !! 3 =
               Some (EvBeginRequest 7, mkClosure 1 false (Some 1) (Some 7) None false))
    by (vm_compute; reflexivity).
  eapply Forall_lookup_1 in H; [|exact Hs].
  destruct H as [(Hr & _)|(_ & _ & [o Ho])]; discriminate.
Qed.

(** C3 (amended): from the moment [gjs_closure_new] returns (on a live
    context, with a callable that is not NULL) the bridge has a fully
    populated triple, and after any sequence of operations on it
    (invocations, with whatever the callable does to the bridge while it
    runs, getters, ref, unref, invalidation, context teardown, the
    registry notifier) the triple is all non-null or all null; the same
    holds at every outgoing call made on the way, which is where a
    reentrant call would look at the bridge, so no partly cleared triple
    is observable.  Inside [gjs_closure_new] the fields are stored one by
    one: its [JS_BeginRequest] is called with runtime and context stored
    and the callable still NULL, and its other calls on the full
    triple. *)
Theorem triple_all_or_nothing (w : World) cx callable ops :
  is_live cx w = true -> w_keep_alive w = [] -> w_trace w = [] ->
  exists w0 w1,
    gjs_closure_new cx (Some callable) w = Some (tt, w0) /\
    Forall (fun x => if decide (x.1 = EvBeginRequest cx)
                     then triple_half_built cx x.2 else triple_full x.2)
           (since (w_trace w) (w_trace w0)) /\
    triple_full (w_closure w0) /\
    run_ops ops w0 = Some (tt, w1) /\
    triple_ok (w_closure w1) /\
    Forall (fun x => triple_ok x.2) (since (w_trace w0) (w_trace w1)).
Proof.
  intros Hl Hk Ht.
  destruct (run_new_bridge w cx callable ops Hl Hk Ht) as (w0 & w1 & E0 & Hf & E1 & _ & H1).
  exists w0, w1. split_and!; try done.
  - unfold is_live in Hl. apply bool_decide_eq_true in Hl. destruct Hl as [rt Hrt].
    rewrite (gjs_closure_new_eq w cx (Some callable) rt Hrt) in E0. cbv zeta in E0.
    injection E0 as <-. cbn [w_trace]. since_simpl.
    repeat (apply Forall_cons_2; [cbn [fst snd]|]); [..|apply Forall_nil_2];
      (destruct (decide _) as [He|He];
       [try discriminate He | try (by destruct He)];
       repeat split; simpl; eauto).
  - by eapply Inv_triple_ok.
  - by apply Inv_since.
Qed.

Lemma triple_all_or_nothing_witness :
  is_live 7 w_host = true /\ w_keep_alive w_host = [] /\ w_trace w_host = [] /\
  exists w0 w1,
    gjs_closure_new 7 (Some 42) w_host = Some (tt, w0) /\
    Forall (fun x => if decide (x.1 = EvBeginRequest 7)
                     then triple_half_built 7 x.2 else triple_full x.2)
           (since (w_trace w_host) (w_trace w0)) /\
    triple_full (w_closure w0) /\
    run_ops [OpInvoke 0 [] [OpUnref] (Failed (Some 5)); OpGlobalFinalized 7] w0
      = Some (tt, w1) /\
    triple_ok (w_closure w1) /\
    Forall (fun x => triple_ok x.2) (since (w_trace w0) (w_trace w1)).
Proof.
  split; [reflexivity|]. split; [reflexivity|]. split; [reflexivity|].
  apply (triple_all_or_nothing w_host 7 42); reflexivity.
Defined.



(** ** C7: the order of clearing and notifying *)

(** C7, as stated, fails: when the last reference of a live bridge is
    dropped, GLib runs the invalidate notification while the triple is
    still populated, and [closure_invalidated] clears it only then. *)
Lemma clear_then_notify_counterexample : ~ clear_then_notify_as_claimed w_new.
Proof.
  intros H.
  assert (E : run_ops [OpUnref] w_new = Some (tt, w_unref)) by (vm_compute; reflexivity).
  specialize (H _ _ E).
  assert (Hs : since (w_trace w_new) (w_trace w_unref) !! 5 =
               Some (EvInvalidateNotify, mkClosure 2 true (Some 1) (Some 7) (Some 42) false))
    by (vm_compute; reflexivity).
  eapply Forall_lookup_1 in H; [|exact Hs].
  destruct (H eq_refl) as (Hr & _). discriminate Hr.
Qed.

(** C7 (amended): when the invalidation starts in
    [invalidate_js_pointers] (the liveness check on a dead context, the
    registry notifier), the triple is cleared first and the notification
    then runs on a null triple.  When GLib starts it
    ([g_closure_invalidate], the last [g_closure_unref]), the
    notification runs first, on the fully populated triple, and
    [closure_invalidated] clears the triple before it returns.  Either way
    no outgoing call sees a partly cleared triple. *)
Theorem clear_then_notify (w : World) :
  triple_full (w_closure w) ->
  is_invalid (w_closure w) = false ->
  1 <= ref_count (w_closure w) ->
  (exists w' cn cc,
      invalidate_js_pointers w = Some (tt, w') /\
      w_trace w' = (EvInvalidateNotify, cn) :: (EvClear, cc) :: w_trace w /\
      triple_null cc /\ triple_null cn /\ triple_null (w_closure w')) /\
  (exists w' cn post,
      g_closure_invalidate w = Some (tt, w') /\
      w_trace w' = post ++ (EvInvalidateNotify, cn) :: w_trace w /\
      triple_full cn /\
      count_ev EvClear post = 1 /\
      Forall (fun x => triple_ok x.2) post /\
      triple_null (w_closure w')).
Proof.
  intros ((rt & Hr) & (cx & Hc) & (o & Ho)) Hinv Hrc.
  destruct w as [[rc inv r c ob fl] fr ctxs pend ka rv tr]. simpl in *. subst.
  destruct rc as [|rc]; [lia|]. split.
  - unfold invalidate_js_pointers. msimpl. invalidate_calls.
    eexists _, _, _. split; [reflexivity|]. simpl. split; [reflexivity|]. done.
  - invalidate_calls.
    destruct (Src.context_walk (Some cx) (contexts_of rt ctxs)) eqn:Hw; simpl.
    + rewrite (walk_live _ _ _ Hw). simpl.
      eexists _, _, [_; _; _]. split; [reflexivity|]. simpl.
      split; [reflexivity|]. split; [repeat split; simpl; eauto|].
      split; [reflexivity|]. split; [|done].
      repeat (apply Forall_cons_2;
              [first [by left | right; repeat split; simpl; eauto]|]).
      apply Forall_nil_2.
    + eexists _, _, [_; _]. split; [reflexivity|]. simpl.
      split; [reflexivity|]. split; [repeat split; simpl; eauto|].
      split; [reflexivity|]. split; [|done].
      repeat (apply Forall_cons_2;
              [first [by left | right; repeat split; simpl; eauto]|]).
      apply Forall_nil_2.
Qed.

Lemma clear_then_notify_witness :
  triple_full (w_closure w_new) /\
  is_invalid (w_closure w_new) = false /\
  1 <= ref_count (w_closure w_new) /\
  (exists w' cn cc,
      invalidate_js_pointers w_new = Some (tt, w') /\
      w_trace w' = (EvInvalidateNotify, cn) :: (EvClear, cc) :: w_trace w_new /\
      triple_null cc /\ triple_null cn /\ triple_null (w_closure w')) /\
  (exists w' cn post,
      g_closure_invalidate w_new = Some (tt, w') /\
      w_trace w' = post ++ (EvInvalidateNotify, cn) :: w_trace w_new /\
      triple_full cn /\
      count_ev EvClear post = 1 /\
      Forall (fun x => triple_ok x.2) post /\
      triple_null (w_closure w')).
Proof.
  assert (H1 : triple_full (w_closure w_new)) by (vm_compute; eauto 10).
  assert (H2 : is_invalid (w_closure w_new) = false) by reflexivity.
  assert (H3 : 1 <= ref_count (w_closure w_new)) by (vm_compute; lia).
  split; [exact H1|]. split; [exact H2|]. split; [exact H3|].
  exact (clear_then_notify w_new H1 H2 H3).
Defined.

(** ** C6: reporting the exception of the callable *)

(** C6, as stated, fails: an exception that is already pending when
    [gjs_closure_invoke] is entered is reported before the call, and the
    one the callable raises is reported after it: two reports. *)
Lemma one_report_counterexample : ~ one_report_as_claimed w_stale_exception.
Proof.
  intros H.
  destruct (H (Failed (Some 5)) 5 0 []
              (default w_host
                 (run (gjs_closure_invoke (engine_call (ret tt) (Failed (Some 5))) 0 [])
                      w_stale_exception))
              7 eq_refl) as [Hlen _].
  - reflexivity.
  - vm_compute. reflexivity.
  - vm_compute in Hlen. discriminate Hlen.
Qed.

(** C6 (amended): when the callable of a valid bridge raises, that is,
    when the engine's call primitive comes back with an exception pending,
    whether it answers failure or success, [gjs_closure_invoke] reports
    that exception exactly once after the call and leaves the context's
    pending slot clear.  The only other report it can make is that of an
    exception already pending on entry, once, before the call. *)
Theorem raised_exception_reported_once call argc argv rt cx callee ok e (w w2 : World) :
  runtime (w_closure w) = Some rt ->
  context (w_closure w) = Some cx ->
  obj (w_closure w) = Some callee ->
  stored_context_live w = true ->
  call cx callee argc argv (at_dispatch w rt cx) = Some (ok, w2) ->
  w_pending w2 !! cx = Some e ->
  exists w',
    gjs_closure_invoke call argc argv w = Some (tt, w') /\
    reports (since (w_trace w2) (w_trace w')) = [e] /\
    w_pending w' !! cx = None /\
    reports (since (w_trace w) (w_trace (at_dispatch w rt cx))) =
      match w_pending w !! cx with Some stale => [stale] | None => [] end.
Proof.
  intros Hr Hc Ho Hl Hcall He.
  unfold gjs_closure_invoke, bind.
  rewrite (check_context_valid_found w rt) by done.
  unfold get_c, upd; simpl. rewrite Ho, Hc.
  unfold at_dispatch in *.
  unfold JS_BeginRequest, JS_IsExceptionPending, emit; simpl.
  destruct (w_pending w !! cx) as [stale|] eqn:Hp.
  - rewrite bool_decide_eq_true_2 by eauto.
    unfold gjs_log_exception at 1; simpl. rewrite Hp.
    unfold bind, set_pending, emit, ret; simpl. rewrite Hcall.
    destruct ok; simpl; unfold gjs_log_exception; rewrite He;
      unfold bind, set_pending, emit, ret, JS_EndRequest, emit; simpl;
      (eexists; split; [reflexivity|]; simpl; since_simpl;
       split; [reflexivity|]; split; [apply lookup_delete_eq | reflexivity]).
  - rewrite bool_decide_eq_false_2 by (by intros [? ?]).
    unfold ret at 1. rewrite Hcall.
    destruct ok; simpl; unfold gjs_log_exception; rewrite He;
      unfold bind, set_pending, emit, ret, JS_EndRequest, emit; simpl;
      (eexists; split; [reflexivity|]; simpl; since_simpl;
       split; [reflexivity|]; split; [apply lookup_delete_eq | reflexivity]).
Qed.

Lemma raised_exception_reported_once_witness :
  runtime (w_closure w_stale_exception) = Some 1 /\
  context (w_closure w_stale_exception) = Some 7 /\
  obj (w_closure w_stale_exception) = Some 42 /\
  stored_context_live w_stale_exception = true /\
  engine_call (ret tt) (Returned 9%Z (Some 5)) 7 42 0 []
              (at_dispatch w_stale_exception 1 7) = Some (true, w_after_call) /\
  w_pending w_after_call !! 7 = Some 5 /\
  exists w',
    gjs_closure_invoke (engine_call (ret tt) (Returned 9%Z (Some 5))) 0 []
                       w_stale_exception = Some (tt, w') /\
    reports (since (w_trace w_after_call) (w_trace w')) = [5] /\
    w_pending w' !! 7 = None /\
    reports (since (w_trace w_stale_exception)
                   (w_trace (at_dispatch w_stale_exception 1 7))) =
      match w_pending w_stale_exception !! 7 with Some stale => [stale] | None => [] end.
Proof.
  assert (H1 : runtime (w_closure w_stale_exception) = Some 1) by reflexivity.
  assert (H2 : context (w_closure w_stale_exception) = Some 7) by reflexivity.
  assert (H3 : obj (w_closure w_stale_exception) = Some 42) by reflexivity.
  assert (H4 : stored_context_live w_stale_exception = true) by reflexivity.
  assert (H5 : engine_call (ret tt) (Returned 9%Z (Some 5)) 7 42 0 []
                 (at_dispatch w_stale_exception 1 7) = Some (true, w_after_call))
    by (vm_compute; reflexivity).
  assert (H6 : w_pending w_after_call !! 7 = Some 5) by (vm_compute; reflexivity).
  split; [exact H1|]. split; [exact H2|]. split; [exact H3|]. split; [exact H4|].
  split; [exact H5|]. split; [exact H6|].
  exact (raised_exception_reported_once _ 0 [] 1 7 42 true 5
           w_stale_exception w_after_call H1 H2 H3 H4 H5 H6).
Defined.

(** ** C1: the reference held for the deferred registry notifier *)

(** The path that does it: when the invalidate notifier finds the context
    dead, [closure_invalidated] sets the flag and takes a reference. *)
Lemma invalidated_on_dead_context_holds_reference w :
  triple_full (w_closure w) ->
  is_invalid (w_closure w) = false ->
  stored_context_live w = false ->
  exists w',
    g_closure_invalidate w = Some (tt, w') /\
    w_closure w' = mkClosure (S (ref_count (w_closure w))) true None None None true /\
    w_keep_alive w' = w_keep_alive w /\
    w_freed w' = w_freed w.
Proof.
  intros ((rt & Hr) & (cx & Hc) & (o & Ho)) Hinv Hl.
  destruct w as [[rc inv r c ob fl] fr ctxs pend ka rv tr].
  unfold stored_context_live in Hl. simpl in *. subst.
  invalidate_calls. rewrite Hl. simpl.
  eexists. split; [reflexivity|]. done.
Qed.

(** And the registry notifier then only drops that reference: it clears
    nothing, notifies nobody, and resets the flag. *)
Lemma deferred_notifier_releases_reference watched w :
  triple_null (w_closure w) ->
  unref_on_global_object_finalized (w_closure w) = true ->
  2 <= ref_count (w_closure w) ->
  global_context_finalized watched w =
  Some (tt, upd w (mkClosure (pred (ref_count (w_closure w))) (is_invalid (w_closure w))
                             None None None false) []).
Proof.
  intros (Hr & Hc & Ho) Hfl Hrc.
  destruct w as [[rc inv r c ob fl] fr ctxs pend ka rv tr]. simpl in *. subst.
  destruct rc as [|[|rc]]; [lia..|].
  unfold global_context_finalized, g_closure_unref. msimpl. reflexivity.
Qed.

(** The path that does not: when an invocation finds the context dead,
    the triple is cleared before [closure_invalidated] is entered, and the
    bridge comes out with the reference count and the flag it went in
    with, its child still in the keep-alive table. *)
Lemma invoke_on_dead_context_takes_no_reference call argc argv w :
  triple_full (w_closure w) ->
  is_invalid (w_closure w) = false ->
  stored_context_live w = false ->
  1 <= ref_count (w_closure w) ->
  exists w',
    gjs_closure_invoke call argc argv w = Some (tt, w') /\
    w_closure w' = mkClosure (ref_count (w_closure w)) true None None None
                             (unref_on_global_object_finalized (w_closure w)) /\
    w_keep_alive w' = w_keep_alive w /\
    w_freed w' = w_freed w.
Proof.
  intros ((rt & Hr) & (cx & Hc) & (o & Ho)) Hinv Hl Hrc.
  destruct w as [[rc inv r c ob fl] fr ctxs pend ka rv tr].
  unfold stored_context_live in Hl. simpl in *. subst.
  destruct rc as [|rc]; [lia|].
  unfold gjs_closure_invoke, check_context_valid. msimpl. rewrite Hl. simpl.
  invalidate_calls. eexists. split; [reflexivity|]. done.
Qed.

(** C1 does not hold on the invocation path: when [gjs_closure_invoke]
    finds the context dead and clears the triple, [closure_invalidated]
    is entered with a NULL callable and returns at once, so no reference
    is taken and the flag stays unset, while the child stays in the
    keep-alive table.  The owner's unref then releases the storage, and
    the registry notifier is later delivered to released storage. *)
Theorem lazy_invalidation_takes_no_reference :
  w_closure w_dead_context = mkClosure 1 false (Some 1) (Some 7) (Some 42) false /\
  w_closure w_lazily_dead = mkClosure 1 true None None None false /\
  w_keep_alive w_lazily_dead = [(7, Some 42)] /\
  w_freed w_released = true /\
  w_keep_alive w_released = [(7, Some 42)] /\
  head (w_trace w_late_notifier) = Some (EvUseAfterFree, w_closure w_released).
Proof. vm_compute. repeat split. Qed.

(** * Further properties of gi/closure.c *)

(** ** Creation and the getters *)

Lemma contexts_of_runtime_of cx rt l :
  runtime_of cx l = Some rt -> cx ∈ contexts_of rt l.
Proof.
  induction l as [|[a r] l IH]; simpl; [discriminate|].
  destruct (Nat.eqb_spec a cx) as [->|Hne].
  - intros [= ->]. rewrite Nat.eqb_refl. left.
  - intros H. destruct (Nat.eqb r rt); [right|]; by apply IH.
Qed.

Lemma live_context_walk cx rt l :
  runtime_of cx l = Some rt -> Src.context_walk (Some cx) (contexts_of rt l) = true.
Proof.
  intros H. apply context_walk_true. exists cx. split; [done|].
  by apply contexts_of_runtime_of.
Qed.

(** X1: a bridge made by [gjs_closure_new] in a live context (whatever
    callable it is given) holds one reference, has its child registered in
    the keep-alive table once, and gives back what it was made from:
    [gjs_closure_get_callable] returns the callable and
    [gjs_closure_get_context] the context, the latter after one walk over
    the runtime's contexts that changes nothing else. *)
Theorem new_bridge_round_trip (w : World) cx callable rt :
  runtime_of cx (w_contexts w) = Some rt ->
  exists w0,
    gjs_closure_new cx callable w = Some (tt, w0) /\
    ref_count (w_closure w0) = 1 /\
    is_invalid (w_closure w0) = false /\
    unref_on_global_object_finalized (w_closure w0) = false /\
    w_freed w0 = false /\
    w_keep_alive w0 = (cx, callable) :: w_keep_alive w /\
    gjs_closure_get_callable w0 = Some (callable, w0) /\
    gjs_closure_get_context w0 =
      Some (Some cx, upd w0 (w_closure w0) [(EvContextIterator rt, w_closure w0)]).
Proof.
  intros Hrt. rewrite (gjs_closure_new_eq w cx callable rt Hrt). cbv zeta.
  eexists. split; [reflexivity|]. simpl. split_and!; try reflexivity.
  unfold gjs_closure_get_context, bind.
  erewrite check_context_valid_found; [reflexivity | reflexivity |].
  unfold stored_context_live. simpl. by apply live_context_walk.
Qed.

Lemma new_bridge_round_trip_witness :
  runtime_of 7 (w_contexts w_host) = Some 1 /\
  exists w0,
    gjs_closure_new 7 (Some 42) w_host = Some (tt, w0) /\
    gjs_closure_get_callable w0 = Some (Some 42, w0) /\
    gjs_closure_get_context w0 =
      Some (Some 7, upd w0 (w_closure w0) [(EvContextIterator 1, w_closure w0)]).
Proof.
  assert (H : runtime_of 7 (w_contexts w_host) = Some 1) by reflexivity.
  split; [exact H|].
  destruct (new_bridge_round_trip w_host 7 (Some 42) 1 H)
    as (w0 & E & _ & _ & _ & _ & _ & Hc & Hx).
  exists w0. split_and!; [exact E | exact Hc | exact Hx].
Defined.

(** X2: [gjs_closure_get_callable] does not re-check the context.  On a
    bridge whose context has left the runtime and that has not been
    checked since, it still returns the callable, while
    [gjs_closure_get_context] returns NULL and clears the triple on the
    way; only after that does [gjs_closure_get_callable] return NULL.  The
    clearing done by [gjs_closure_get_context] takes no reference, sets no
    flag and leaves the child in the keep-alive table. *)
Theorem getters_on_unchecked_dead_context (w : World) o :
  triple_full (w_closure w) ->
  obj (w_closure w) = Some o ->
  is_invalid (w_closure w) = false ->
  1 <= ref_count (w_closure w) ->
  stored_context_live w = false ->
  gjs_closure_get_callable w = Some (Some o, w) /\
  exists w',
    gjs_closure_get_context w = Some (None, w') /\
    w_closure w' = mkClosure (ref_count (w_closure w)) true None None None
                             (unref_on_global_object_finalized (w_closure w)) /\
    w_keep_alive w' = w_keep_alive w /\
    w_freed w' = w_freed w /\
    gjs_closure_get_callable w' = Some (None, w').
Proof.
  intros ((rt & Hr) & (cx & Hc) & _) Ho Hinv Hrc Hl.
  destruct w as [[rc inv r c ob fl] fr ctxs pend ka rv tr].
  unfold stored_context_live in Hl. simpl in *. subst.
  destruct rc as [|rc]; [lia|]. split; [reflexivity|].
  unfold gjs_closure_get_context, check_context_valid. msimpl. rewrite Hl. simpl.
  invalidate_calls. eexists. split; [reflexivity|]. done.
Qed.

Lemma getters_on_unchecked_dead_context_witness :
  triple_full (w_closure w_dead_context) /\
  obj (w_closure w_dead_context) = Some 42 /\
  is_invalid (w_closure w_dead_context) = false /\
  1 <= ref_count (w_closure w_dead_context) /\
  stored_context_live w_dead_context = false /\
  gjs_closure_get_callable w_dead_context = Some (Some 42, w_dead_context) /\
  exists w',
    gjs_closure_get_context w_dead_context = Some (None, w') /\
    gjs_closure_get_callable w' = Some (None, w').
Proof.
  assert (H1 : triple_full (w_closure w_dead_context)) by (vm_compute; eauto 10).
  assert (H2 : obj (w_closure w_dead_context) = Some 42) by reflexivity.
  assert (H3 : is_invalid (w_closure w_dead_context) = false) by reflexivity.
  assert (H4 : 1 <= ref_count (w_closure w_dead_context)) by (vm_compute; lia).
  assert (H5 : stored_context_live w_dead_context = false) by reflexivity.
  split; [exact H1|]. split; [exact H2|]. split; [exact H3|].
  split; [exact H4|]. split; [exact H5|].
  destruct (getters_on_unchecked_dead_context w_dead_context 42 H1 H2 H3 H4 H5)
    as (Hc & w' & E & _ & _ & _ & Hc').
  split; [exact Hc|]. exists w'. split; [exact E | exact Hc'].
Defined.

(** ** The registry notifier and the last unref *)

(** X3: when the collector finalizes the global object while the bridge is
    still active, [global_context_finalized] clears the triple and fires
    the invalidate notification once, on the cleared triple; it drops no
    reference and leaves the flag unset, whether the context is still
    among the runtime's contexts or not.  Called with a watched object
    other than the bridge's callable, it stops at its assertion. *)
Theorem registry_notifier_on_active_bridge (w : World) rc rt cx o watched :
  w_closure w = mkClosure (S rc) false (Some rt) (Some cx) (Some o) false ->
  (watched = Some o ->
   global_context_finalized watched w =
   Some (tt, upd w (mkClosure (S rc) true None None None false)
               [(EvInvalidateNotify, mkClosure (S (S rc)) true None None None false);
                (EvClear, mkClosure (S rc) false None None None false)])) /\
  (watched <> Some o -> global_context_finalized watched w = None).
Proof.
  intros Hc. destruct w as [c fr ctxs pend ka rv tr]. simpl in Hc. subst c.
  unfold global_context_finalized, invalidate_js_pointers. split.
  - intros ->. msimpl. rewrite bool_decide_eq_true_2 by done.
    invalidate_calls. reflexivity.
  - intros Hne. msimpl. rewrite bool_decide_eq_false_2 by congruence. reflexivity.
Qed.

Lemma registry_notifier_on_active_bridge_witness :
  w_closure w_new = mkClosure 1 false (Some 1) (Some 7) (Some 42) false /\
  global_context_finalized (Some 42) w_new =
    Some (tt, upd w_new (mkClosure 1 true None None None false)
                [(EvInvalidateNotify, mkClosure 2 true None None None false);
                 (EvClear, mkClosure 1 false None None None false)]) /\
  global_context_finalized (Some 43) w_new = None.
Proof.
  assert (H : w_closure w_new = mkClosure 1 false (Some 1) (Some 7) (Some 42) false)
    by reflexivity.
  split; [exact H|].
  destruct (registry_notifier_on_active_bridge w_new 0 1 7 42 (Some 42) H) as [H1 _].
  destruct (registry_notifier_on_active_bridge w_new 0 1 7 42 (Some 43) H) as [_ H2].
  split; [exact (H1 eq_refl) | apply H2; discriminate].
Defined.

Lemma fire_own_child cx (o : option JSObject) :
  filter (fun e : JSContext * option JSObject => e.1 = cx) [(cx, o)] = [(cx, o)] /\
  filter (fun e : JSContext * option JSObject => e.1 <> cx) [(cx, o)] = [].
Proof.
  split.
  - rewrite filter_cons. simpl. by rewrite decide_True.
  - rewrite filter_cons. simpl. by rewrite decide_False by (intros H; by apply H).
Qed.

(** X4: the deferred release, end to end.  When the last reference of an
    active bridge is dropped after its context has left the runtime,
    [closure_invalidated] keeps the bridge: its storage is not released,
    it holds one reference with the flag set, and its child stays in the
    keep-alive table.  When the global object is finalized afterwards, the
    registry notifier finds that storage, clears nothing and notifies
    nobody, resets the flag and drops the reference, which runs the
    finalize notifier and releases the storage, once. *)
Theorem last_unref_after_context_death (w : World) rt cx o :
  w_closure w = mkClosure 1 false (Some rt) (Some cx) (Some o) false ->
  w_freed w = false ->
  stored_context_live w = false ->
  w_keep_alive w = [(cx, Some o)] ->
  exists w1 w2,
    g_closure_unref w = Some (tt, w1) /\
    w_closure w1 = mkClosure 1 true None None None true /\
    w_freed w1 = false /\
    w_keep_alive w1 = [(cx, Some o)] /\
    keep_alive_fire cx w1 = Some (tt, w2) /\
    w_closure w2 = mkClosure 0 true None None None false /\
    w_freed w2 = true /\
    w_keep_alive w2 = [] /\
    map fst (since (w_trace w1) (w_trace w2)) = [EvFree; EvFinalizeNotify].
Proof.
  intros Hc Hfr Hl Hka. destruct w as [c fr ctxs pend ka rv tr].
  unfold stored_context_live in Hl. simpl in *. subst.
  unfold g_closure_unref. msimpl. invalidate_calls. rewrite Hl. simpl.
  eexists _, _. split; [reflexivity|]. simpl. do 3 (split; [reflexivity|]).
  split.
  - unfold keep_alive_fire. simpl.
    destruct (fire_own_child cx (Some o)) as [-> ->].
    unfold global_context_finalized, g_closure_unref. msimpl. invalidate_calls.
    reflexivity.
  - simpl. since_simpl. done.
Qed.

Lemma last_unref_after_context_death_witness :
  w_closure w_dead_context = mkClosure 1 false (Some 1) (Some 7) (Some 42) false /\
  w_freed w_dead_context = false /\
  stored_context_live w_dead_context = false /\
  w_keep_alive w_dead_context = [(7, Some 42)] /\
  exists w1 w2,
    g_closure_unref w_dead_context = Some (tt, w1) /\
    w_freed w1 = false /\
    keep_alive_fire 7 w1 = Some (tt, w2) /\
    w_freed w2 = true.
Proof.
  assert (H1 : w_closure w_dead_context
               = mkClosure 1 false (Some 1) (Some 7) (Some 42) false) by reflexivity.
  assert (H2 : w_freed w_dead_context = false) by reflexivity.
  assert (H3 : stored_context_live w_dead_context = false) by reflexivity.
  assert (H4 : w_keep_alive w_dead_context = [(7, Some 42)]) by reflexivity.
  split; [exact H1|]. split; [exact H2|]. split; [exact H3|]. split; [exact H4|].
  destruct (last_unref_after_context_death w_dead_context 1 7 42 H1 H2 H3 H4)
    as (w1 & w2 & E1 & _ & F1 & _ & E2 & _ & F2 & _).
  exists w1, w2. split_and!; [exact E1 | exact F1 | exact E2 | exact F2].
Defined.

(** X5: the ordinary release.  When the last reference of an active bridge
    is dropped while its context is alive, [closure_invalidated] takes the
    bridge's child out of the keep-alive table before the triple is
    cleared and the storage released; a later finalization of any global
    object then has nothing to deliver to the bridge. *)
Theorem last_unref_with_live_context (w : World) rt cx o fl :
  w_closure w = mkClosure 1 false (Some rt) (Some cx) (Some o) fl ->
  w_freed w = false ->
  stored_context_live w = true ->
  w_keep_alive w = [(cx, Some o)] ->
  exists w1,
    g_closure_unref w = Some (tt, w1) /\
    w_closure w1 = mkClosure 0 true None None None fl /\
    w_freed w1 = true /\
    w_keep_alive w1 = [] /\
    map fst (since (w_trace w) (w_trace w1)) =
      [EvFree; EvFinalizeNotify; EvClear; EvKeepAliveRemove cx (Some o);
       EvContextIterator rt; EvInvalidateNotify] /\
    forall cx', keep_alive_fire cx' w1 = Some (tt, w1).
Proof.
  intros Hc Hfr Hl Hka. destruct w as [c fr ctxs pend ka rv tr].
  unfold stored_context_live in Hl. simpl in *. subst.
  unfold g_closure_unref. msimpl. invalidate_calls. rewrite Hl. simpl.
  rewrite (walk_live _ _ _ Hl). simpl. rewrite bool_decide_eq_true_2 by done.
  eexists. split; [reflexivity|]. simpl. since_simpl. split_and!; try reflexivity.
Qed.

Lemma last_unref_with_live_context_witness :
  w_closure w_new = mkClosure 1 false (Some 1) (Some 7) (Some 42) false /\
  w_freed w_new = false /\
  stored_context_live w_new = true /\
  w_keep_alive w_new = [(7, Some 42)] /\
  exists w1,
    g_closure_unref w_new = Some (tt, w1) /\
    w_freed w1 = true /\
    w_keep_alive w1 = [] /\
    keep_alive_fire 7 w1 = Some (tt, w1).
Proof.
  assert (H1 : w_closure w_new
               = mkClosure 1 false (Some 1) (Some 7) (Some 42) false) by reflexivity.
  assert (H2 : w_freed w_new = false) by reflexivity.
  assert (H3 : stored_context_live w_new = true) by reflexivity.
  assert (H4 : w_keep_alive w_new = [(7, Some 42)]) by reflexivity.
  split; [exact H1|]. split; [exact H2|]. split; [exact H3|]. split; [exact H4|].
  destruct (last_unref_with_live_context w_new 1 7 42 false H1 H2 H3 H4)
    as (w1 & E1 & _ & F1 & K1 & _ & Hf).
  exists w1. split_and!; [exact E1 | exact F1 | exact K1 | exact (Hf 7)].
Defined.

(** ** Invocation of a valid bridge *)

Lemma invoke_valid_bridge_eq call argc argv rt cx callee ok (w w2 : World) :
  runtime (w_closure w) = Some rt ->
  context (w_closure w) = Some cx ->
  obj (w_closure w) = Some callee ->
  stored_context_live w = true ->
  call cx callee argc argv (at_dispatch w rt cx) = Some (ok, w2) ->
  gjs_closure_invoke call argc argv w =
  Some (tt, mkWorld (w_closure w2) (w_freed w2) (w_contexts w2)
                    (delete cx (w_pending w2)) (w_keep_alive w2) (w_retval w2)
                    ((EvEndRequest cx, w_closure w2)
                       :: report_of (w_pending w2 !! cx) (w_closure w2) ++ w_trace w2)).
Proof.
  intros Hr Hc Ho Hl Hcall.
  unfold gjs_closure_invoke, bind.
  rewrite (check_context_valid_found w rt) by done.
  unfold get_c, upd; simpl. rewrite Ho, Hc.
  unfold at_dispatch in Hcall.
  unfold JS_BeginRequest, JS_IsExceptionPending, emit; simpl.
  destruct (w_pending w !! cx) as [stale|] eqn:Hp.
  - rewrite bool_decide_eq_true_2 by eauto.
    unfold gjs_log_exception at 1; simpl. rewrite Hp.
    unfold bind, set_pending, emit, ret; simpl. rewrite Hcall.
    destruct w2 as [c2 fr2 ctxs2 pend2 ka2 rv2 tr2].
    destruct ok; simpl; unfold gjs_log_exception; simpl;
      destruct (pend2 !! cx) as [e|] eqn:He; simpl;
      unfold bind, set_pending, emit, ret, JS_EndRequest, emit; simpl;
      try reflexivity; by rewrite delete_id.
  - rewrite bool_decide_eq_false_2 by (by intros [? ?]).
    unfold ret at 1. rewrite Hcall.
    destruct w2 as [c2 fr2 ctxs2 pend2 ka2 rv2 tr2].
    destruct ok; simpl; unfold gjs_log_exception; simpl;
      destruct (pend2 !! cx) as [e|] eqn:He; simpl;
      unfold bind, set_pending, emit, ret, JS_EndRequest, emit; simpl;
      try reflexivity; by rewrite delete_id.
Qed.

(** X6: on a valid bridge [gjs_closure_invoke] makes one call of the
    engine's call primitive, with the bridge's context and callable and
    the caller's argc and argv, in the world [at_dispatch].  Whatever that
    call answers and whatever it did meanwhile (return, fail, leave an
    exception pending or not, invalidate or release the bridge), the
    invocation then reports the exception pending on the context it read
    before the call, if there is one, leaves that context's pending slot
    clear, closes the request and touches nothing else: the bridge, the
    retval slot and the rest of the engine are as the call left them. *)
Theorem invoke_valid_bridge call argc argv rt cx callee ok (w w2 : World) :
  runtime (w_closure w) = Some rt ->
  context (w_closure w) = Some cx ->
  obj (w_closure w) = Some callee ->
  stored_context_live w = true ->
  call cx callee argc argv (at_dispatch w rt cx) = Some (ok, w2) ->
  exists w',
    gjs_closure_invoke call argc argv w = Some (tt, w') /\
    w_closure w' = w_closure w2 /\ w_freed w' = w_freed w2 /\
    w_contexts w' = w_contexts w2 /\ w_keep_alive w' = w_keep_alive w2 /\
    w_retval w' = w_retval w2 /\
    w_pending w' !! cx = None /\
    (forall y, y <> cx -> w_pending w' !! y = w_pending w2 !! y) /\
    w_trace w' = (EvEndRequest cx, w_closure w2)
                   :: report_of (w_pending w2 !! cx) (w_closure w2) ++ w_trace w2.
Proof.
  intros Hr Hc Ho Hl Hcall.
  rewrite (invoke_valid_bridge_eq call argc argv rt cx callee ok w w2) by done.
  eexists. split; [reflexivity|]. simpl. split_and!; try reflexivity.
  - apply lookup_delete_eq.
  - intros y Hy. by apply lookup_delete_ne.
Qed.

Lemma invoke_valid_bridge_witness :
  runtime (w_closure w_stale_exception) = Some 1 /\
  context (w_closure w_stale_exception) = Some 7 /\
  obj (w_closure w_stale_exception) = Some 42 /\
  stored_context_live w_stale_exception = true /\
  engine_call (ret tt) (Returned 9%Z (Some 5)) 7 42 0 []
              (at_dispatch w_stale_exception 1 7) = Some (true, w_after_call) /\
  exists w',
    gjs_closure_invoke (engine_call (ret tt) (Returned 9%Z (Some 5))) 0 []
                       w_stale_exception = Some (tt, w') /\
    w_retval w' = w_retval w_after_call /\
    w_pending w' !! 7 = None.
Proof.
  assert (H1 : runtime (w_closure w_stale_exception) = Some 1) by reflexivity.
  assert (H2 : context (w_closure w_stale_exception) = Some 7) by reflexivity.
  assert (H3 : obj (w_closure w_stale_exception) = Some 42) by reflexivity.
  assert (H4 : stored_context_live w_stale_exception = true) by reflexivity.
  assert (H5 : engine_call (ret tt) (Returned 9%Z (Some 5)) 7 42 0 []
                 (at_dispatch w_stale_exception 1 7) = Some (true, w_after_call))
    by (vm_compute; reflexivity).
  split; [exact H1|]. split; [exact H2|]. split; [exact H3|]. split; [exact H4|].
  split; [exact H5|].
  destruct (invoke_valid_bridge _ 0 [] 1 7 42 true
              w_stale_exception w_after_call H1 H2 H3 H4 H5)
    as (w' & E & _ & _ & _ & _ & Hrv & Hp & _).
  exists w'. split_and!; [exact E | exact Hrv | exact Hp].
Defined.

(** ** Engine requests *)

Lemma request_depth_cons y e c tr :
  request_depth y ((e, c) :: tr) = (request_depth y tr + request_delta y e)%Z.
Proof.
  unfold request_depth. rewrite !count_ev_cons. simpl.
  destruct e; simpl; repeat destruct (decide _); simplify_eq; lia.
Qed.

Lemma request_depth_report y p c tr :
  request_depth y (report_of p c ++ tr) = request_depth y tr.
Proof.
  destruct p; simpl; [|done]. rewrite request_depth_cons. simpl. lia.
Qed.

Lemma engine_call_returns out : call_returns (engine_call (ret tt) out).
Proof. intros x o n a v. destruct out as [? [?|]|[?|]]; eexists; reflexivity. Qed.

Lemma engine_call_request_neutral out : call_request_neutral (engine_call (ret tt) out).
Proof.
  intros x o n a v ok v' H y.
  destruct out as [? [?|]|[?|]]; unfold engine_call, leave_pending in H; msimpl;
    simplify_eq; simpl; rewrite request_depth_cons; simpl; lia.
Qed.

(** [gjs_closure_invoke] closes the request it opens, on every path. *)
Lemma gjs_closure_invoke_requests call argc argv w :
  triple_ok (w_closure w) ->
  call_returns call ->
  call_request_neutral call ->
  exists w',
    gjs_closure_invoke call argc argv w = Some (tt, w') /\
    forall y, request_depth y (w_trace w') = request_depth y (w_trace w).
Proof.
  intros Hok Hret Hneu.
  destruct (stored_context_live w) eqn:Hl.
  - destruct Hok as [(Hr & _)|((rt & Hr) & (cx & Hc) & (o & Ho))].
    { unfold stored_context_live in Hl. by rewrite Hr in Hl. }
    destruct (Hret cx o argc argv (at_dispatch w rt cx)) as [[ok w2] Hcall].
    rewrite (invoke_valid_bridge_eq call argc argv rt cx o ok w w2) by done.
    eexists. split; [reflexivity|]. intros y. simpl.
    rewrite request_depth_cons, request_depth_report.
    rewrite (Hneu _ _ _ _ _ _ _ Hcall y).
    unfold at_dispatch. destruct (w_pending w !! cx); simpl;
      rewrite !request_depth_cons; simpl; destruct (decide (cx = y)); lia.
  - destruct Hok as [(Hr & Hc & Ho)|((rt & Hr) & (cx & Hc) & (o & Ho))].
    + unfold gjs_closure_invoke, bind. rewrite check_context_valid_null by done.
      unfold get_c. rewrite Ho.
      destruct w as [[rc inv r c ob fl] fr ctxs pend ka rv tr]. simpl in *. subst.
      msimpl. eexists. split; [reflexivity|]. done.
    + destruct w as [[rc inv r c ob fl] fr ctxs pend ka rv tr].
      unfold stored_context_live in Hl. simpl in *. subst r c ob.
      unfold gjs_closure_invoke, check_context_valid. msimpl. rewrite Hl. simpl.
      destruct inv; invalidate_calls.
      * eexists. split; [reflexivity|]. intros y. simpl.
        rewrite !request_depth_cons. simpl. lia.
      * destruct rc as [|rc]; simpl;
          (eexists; split; [reflexivity|]; intros y; simpl;
           rewrite !request_depth_cons; simpl; lia).
Qed.

(** X7: [gjs_closure_invoke_simple] opens a request on the context it is
    given before it pushes the arguments.  When the push fails it returns
    without closing it: that context is left with one more open request.
    When the push succeeds, every request opened on the way is closed
    again, on any context, whatever the state of the bridge, provided the
    call primitive itself comes back with its requests closed. *)
Theorem invoke_simple_requests call cx format pushed (w : World) :
  triple_ok (w_closure w) ->
  call_returns call ->
  call_request_neutral call ->
  exists b w',
    gjs_closure_invoke_simple call cx format pushed w = Some (b, w') /\
    forall y,
      request_depth y (w_trace w') =
      (request_depth y (w_trace w)
       + match pushed with
         | None => if decide (cx = y) then 1 else 0
         | Some _ => 0
         end)%Z.
Proof.
  intros Hok Hret Hneu. unfold gjs_closure_invoke_simple.
  destruct pushed as [argv|].
  - assert (triple_ok (w_closure (upd w (w_closure w)
              [(EvBeginRequest cx, w_closure w)]))) as Hok' by exact Hok.
    destruct (gjs_closure_invoke_requests call (String.length format) argv _
                Hok' Hret Hneu) as (w1 & E1 & Hd).
    unfold upd in E1, Hd. simpl in E1, Hd.
    eexists true, _. split.
    + unfold bind at 1. unfold JS_BeginRequest, emit.
      unfold bind at 1. rewrite E1. reflexivity.
    + intros y. simpl. rewrite !request_depth_cons, Hd, request_depth_cons. simpl.
      destruct (decide (cx = y)); lia.
  - eexists false, _. split; [reflexivity|].
    intros y. simpl. rewrite request_depth_cons. simpl. reflexivity.
Qed.

Lemma invoke_simple_requests_witness :
  triple_ok (w_closure w_new) /\
  call_returns (engine_call (ret tt) (Failed (Some 5))) /\
  call_request_neutral (engine_call (ret tt) (Failed (Some 5))) /\
  exists b w',
    gjs_closure_invoke_simple (engine_call (ret tt) (Failed (Some 5))) 7 "i" None w_new
      = Some (b, w') /\
    request_depth 7 (w_trace w') = Z.add (request_depth 7 (w_trace w_new)) 1.
Proof.
  assert (H1 : triple_ok (w_closure w_new)) by (right; vm_compute; eauto 10).
  pose proof (engine_call_returns (Failed (Some 5))) as H2.
  pose proof (engine_call_request_neutral (Failed (Some 5))) as H3.
  split; [exact H1|]. split; [exact H2|]. split; [exact H3|].
  destruct (invoke_simple_requests _ 7 "i" None w_new H1 H2 H3) as (b & w' & E & Hd).
  exists b, w'. split; [exact E | exact (Hd 7)].
Defined.

(** ** Callers that hold references: no notifier reaches released storage *)








Section Owners.

Variables (cx0 : JSContext) (o0 : JSObject) (rt0 : JSRuntime).


Lemma own_child_removed :
  remove_child cx0 (Some o0) [(cx0, Some o0)] = [].
Proof. simpl. by rewrite bool_decide_eq_true_2. Qed.














End Owners.




